(** * collect_rss.py: the RSS news collector, embedded and verified

    A shallow embedding of [scripts/collect_rss.py]: entry filtering
    (URL dedup, recency, exclude and include keywords), the per-feed fetch
    wrapper, the category sort and the Markdown digest renderer.

    Conventions of the embedding.
    - A Python [str] is a list of Unicode code points ([str := list N]), so
      that slicing ([s[:150]]) and [in] count characters as Python does.
    - [str.lower], the Unicode whitespace table behind [\s] and [str.strip],
      and [datetime.strftime] belong to the Python runtime, not to the
      script: they are Section variables, so every theorem holds for
      whatever these library functions compute.
    - Exceptions that the script does not catch are results of an error
      monad ([pyresult]); [try ... except Exception] is [try_except].
    - [as_completed] yields the fetched feeds in a nondeterministic order:
      the collector takes that order as an argument. *)

From Stdlib Require Import ZArith NArith Ascii String DecimalString.
From stdpp Require Import base list gmap sorting.

Local Open Scope Z_scope.

(** ** Python strings *)

Module PyStr.

Definition char := N.
Definition str := list char.

(** Code points of a UTF-8 byte sequence (string literals of this file are
    UTF-8 encoded, as the literals of the script are). *)
Fixpoint utf8_decode (bs : list N) : str :=
  match bs with
  | [] => []
  | b0 :: r0 =>
    if (b0 <? 128)%N then b0 :: utf8_decode r0
    else if (b0 <? 224)%N then
      match r0 with
      | b1 :: r1 => ((b0 - 192) * 64 + (b1 - 128))%N :: utf8_decode r1
      | [] => [b0]
      end
    else if (b0 <? 240)%N then
      match r0 with
      | b1 :: b2 :: r2 =>
        ((b0 - 224) * 4096 + (b1 - 128) * 64 + (b2 - 128))%N :: utf8_decode r2
      | _ => [b0]
      end
    else
      match r0 with
      | b1 :: b2 :: b3 :: r3 =>
        ((b0 - 240) * 262144 + (b1 - 128) * 4096 + (b2 - 128) * 64 + (b3 - 128))%N
          :: utf8_decode r3
      | _ => [b0]
      end
  end.

Definition bytes_of (s : string) : list N :=
  List.map (fun a => N_of_ascii a) (list_ascii_of_string s).

(** [u "..."] is the Python literal ["..."]. *)
Definition u (s : string) : str := utf8_decode (bytes_of s).
Arguments u : simpl never.

(** [f"{n}"] for an [int]. *)
Definition str_of_int (n : Z) : str :=
  u (NilZero.string_of_int (Z.to_int n)).

Definition char_eqb (a b : char) : bool := (a =? b)%N.

(** [s.startswith(p)] *)
Fixpoint startswith (p s : str) : bool :=
  match p, s with
  | [], _ => true
  | _ :: _, [] => false
  | a :: p', b :: s' => char_eqb a b && startswith p' s'
  end.

(** [sub in s] *)
Fixpoint contains (sub s : str) : bool :=
  startswith sub s ||
  match s with
  | [] => false
  | _ :: s' => contains sub s'
  end.

(** [sep.join(parts)] *)
Fixpoint join (sep : str) (parts : list str) : str :=
  match parts with
  | [] => []
  | [p] => p
  | p :: rest => p ++ sep ++ join sep rest
  end.

(** [bool(s)] *)
Definition nonempty (s : str) : bool :=
  match s with [] => false | _ :: _ => true end.

(** [s.split(c)] for a one-character separator. *)
Fixpoint split_char (c : char) (s : str) : list str :=
  match s with
  | [] => [[]]
  | x :: s' =>
    if char_eqb x c then [] :: split_char c s'
    else
      match split_char c s' with
      | l :: ls => (x :: l) :: ls
      | [] => [[x]]
      end
  end.

(** [s.partition(sep)] at the first occurrence of [sep], without the
    separator; [None] when [sep] does not occur. *)
Fixpoint partition_at (sep s : str) : option (str * str) :=
  if startswith sep s then Some ([], drop (length sep) s)
  else
    match s with
    | [] => None
    | x :: s' =>
      match partition_at sep s' with
      | Some (a, b) => Some (x :: a, b)
      | None => None
      end
    end.

(** [s.removeprefix(p)] when [s] starts with [p]. *)
Definition strip_prefix (p s : str) : option str :=
  if startswith p s then Some (drop (length p) s) else None.

(** [s[:-1]] when [s] ends with the character [c]. *)
Definition strip_last (c : char) (s : str) : option str :=
  match rev s with
  | x :: r => if char_eqb x c then Some (rev r) else None
  | [] => None
  end.

End PyStr.
Import PyStr.

(** ** Exceptions *)

Inductive pyresult (E A : Type) : Type :=
| Return (a : A)
| Raise (e : E).
Arguments Return {E A} a.
Arguments Raise {E A} e.

Definition bind {E A B} (m : pyresult E A) (k : A -> pyresult E B) : pyresult E B :=
  match m with
  | Return a => k a
  | Raise e => Raise e
  end.

Notation "'let!' x ':=' m 'in' k" := (bind m (fun x => k))
  (at level 10, x name, m at level 100, k at level 200).

(** [try: body  except Exception as e: handler(e)] *)
Definition try_except {E E' A} (body : pyresult E A) (handler : E -> pyresult E' A)
  : pyresult E' A :=
  match body with
  | Return a => Return a
  | Raise e => handler e
  end.

(** ** The part of [datetime] the script uses

    An aware datetime with a fixed-offset [tzinfo] is a point of its wall
    clock, in microseconds since 0001-01-01T00:00:00, and the offset of its
    time zone, in microseconds east of UTC. The civil fields ([year],
    [month], ...) are read off the wall clock with the proleptic Gregorian
    calendar of the [datetime] module. *)

Module Datetime.

Inductive exn : Type := ValueError | OverflowError.

Record datetime : Type := mk_datetime {
  wall : Z;
  utcoffset : Z
}.

Definition us_per_second : Z := 1000000.
Definition us_per_hour : Z := 3600 * us_per_second.
Definition us_per_day : Z := 24 * us_per_hour.

(** [timezone.utc] and [JST = timezone(timedelta(hours=9))] *)
Definition utc : Z := 0.
Definition JST : Z := 9 * us_per_hour.

Definition MINYEAR : Z := 1.
Definition MAXYEAR : Z := 9999.
Definition MAXORDINAL : Z := 3652059.

Definition is_leap (y : Z) : bool :=
  (y mod 4 =? 0) && (negb (y mod 100 =? 0) || (y mod 400 =? 0)).

Definition days_in_month_table : list Z :=
  [31; 28; 31; 30; 31; 30; 31; 31; 30; 31; 30; 31].

Definition days_in_month (y m : Z) : Z :=
  if (m =? 2) && is_leap y then 29
  else nth (Z.to_nat (m - 1)) days_in_month_table 0.

Definition days_before_year (y : Z) : Z :=
  let p := y - 1 in p * 365 + p / 4 - p / 100 + p / 400.

Definition days_before_month_plain (m : Z) : Z :=
  foldr Z.add 0 (firstn (Z.to_nat (m - 1)) days_in_month_table).

Definition days_before_month (y m : Z) : Z :=
  days_before_month_plain m + (if (2 <? m) && is_leap y then 1 else 0).

(** [date(y, m, d).toordinal()]: 0001-01-01 is day 1. *)
Definition ymd2ord (y m d : Z) : Z :=
  days_before_year y + days_before_month y m + d.

(** [date.fromordinal(n)], as (year, month, day). *)
Definition ord2ymd (n0 : Z) : Z * Z * Z :=
  let n := n0 - 1 in
  let n400 := n / 146097 in let n := n mod 146097 in
  let n100 := n / 36524 in let n := n mod 36524 in
  let n4 := n / 1461 in let n := n mod 1461 in
  let n1 := n / 365 in let n := n mod 365 in
  let y := n400 * 400 + 1 + n100 * 100 + n4 * 4 + n1 in
  if (n1 =? 4) || (n100 =? 4) then (y - 1, 12, 31)
  else
    let leapyear := (n1 =? 3) && (negb (n4 =? 24) || (n100 =? 3)) in
    let m := (n + 50) / 32 in
    let preceding :=
      days_before_month_plain m + (if (2 <? m) && leapyear then 1 else 0) in
    if n <? preceding then
      let m' := m - 1 in
      let preceding' :=
        preceding
        - (nth (Z.to_nat (m' - 1)) days_in_month_table 0
           + (if (m' =? 2) && leapyear then 1 else 0)) in
      (y, m', n - preceding' + 1)
    else (y, m, n - preceding + 1).

(** The instant, in microseconds of UTC. *)
Definition instant (d : datetime) : Z := wall d - utcoffset d.

(** [d.toordinal()] and the civil fields. *)
Definition toordinal (d : datetime) : Z := wall d / us_per_day + 1.
Definition year (d : datetime) : Z := fst (fst (ord2ymd (toordinal d))).
Definition month (d : datetime) : Z := snd (fst (ord2ymd (toordinal d))).
Definition day (d : datetime) : Z := snd (ord2ymd (toordinal d)).
Definition hour (d : datetime) : Z := (wall d mod us_per_day) / us_per_hour.
Definition minute (d : datetime) : Z :=
  (wall d mod us_per_hour) / (60 * us_per_second).
Definition second (d : datetime) : Z :=
  (wall d mod (60 * us_per_second)) / us_per_second.
Definition microsecond (d : datetime) : Z := wall d mod us_per_second.

(** [d.weekday()]: Monday is 0. *)
Definition weekday (d : datetime) : Z := (toordinal d + 6) mod 7.

(** The wall clocks of [datetime.min] .. [datetime.max]. *)
Definition max_wall : Z := MAXORDINAL * us_per_day.
Definition in_range (w : Z) : bool := (0 <=? w) && (w <? max_wall).

(** The arguments of [datetime(...)] are converted to C [int]s first. *)
Definition c_int (z : Z) : bool := (- 2 ^ 31 <=? z) && (z <? 2 ^ 31).

(** [datetime(y, m, d, h, mi, s, tzinfo=tz)] *)
Definition datetime_new (y m d h mi s tz : Z) : pyresult exn datetime :=
  if negb (forallb c_int [y; m; d; h; mi; s]) then Raise OverflowError
  else if negb ((MINYEAR <=? y) && (y <=? MAXYEAR)) then Raise ValueError
  else if negb ((1 <=? m) && (m <=? 12)) then Raise ValueError
  else if negb ((1 <=? d) && (d <=? days_in_month y m)) then Raise ValueError
  else if negb ((0 <=? h) && (h <=? 23)) then Raise ValueError
  else if negb ((0 <=? mi) && (mi <=? 59)) then Raise ValueError
  else if negb ((0 <=? s) && (s <=? 59)) then Raise ValueError
  else Return {|
    wall := ((ymd2ord y m d - 1) * 86400 + h * 3600 + mi * 60 + s) * us_per_second;
    utcoffset := tz |}.

(** [d - timedelta(hours=h)] *)
Definition sub_hours (d : datetime) (h : Z) : pyresult exn datetime :=
  let w := wall d - h * us_per_hour in
  if in_range w then Return {| wall := w; utcoffset := utcoffset d |}
  else Raise OverflowError.

(** [a < b] for two aware datetimes. *)
Definition lt (a b : datetime) : bool := instant a <? instant b.

(** [d.astimezone(tz)] for a [tz] other than [d.tzinfo]. *)
Definition astimezone (d : datetime) (tz : Z) : pyresult exn datetime :=
  let w_utc := wall d - utcoffset d in
  if negb (in_range w_utc) then Raise OverflowError
  else
    let w := w_utc + tz in
    if in_range w then Return {| wall := w; utcoffset := tz |}
    else Raise OverflowError.

End Datetime.

(** ** The script *)

Module CollectRss.
Import Datetime.

(** *** Data *)

(** The first six fields of a [time.struct_time] ([parsed[:6]]). *)
Record struct_time : Type := mk_struct_time {
  tm_year : Z; tm_mon : Z; tm_mday : Z; tm_hour : Z; tm_min : Z; tm_sec : Z
}.

(** A feed entry ([feedparser.FeedParserDict]); [None] is a missing attribute
    (for the two dates also an attribute that is [None]). *)
Record Entry : Type := mk_Entry {
  entry_link : option str;
  entry_title : option str;
  entry_summary : option str;
  entry_published_parsed : option struct_time;
  entry_updated_parsed : option struct_time
}.

(** What [feedparser.parse] returns; [bozo_exception] is its [str()]. *)
Record FeedParserDict : Type := mk_FeedParserDict {
  bozo : bool;
  bozo_exception : str;
  entries : list Entry
}.

(** An exception instance raised inside [feedparser.parse]; [str_e] is
    [str(e)]. *)
Record py_exception : Type := mk_py_exception { str_e : str }.

(** One item of [feeds], a plain dict: [None] is an absent key. [name] and
    [url] are subscripted, [category] and [language] are read with [.get]. *)
Record FeedConfig : Type := mk_FeedConfig {
  feed_name : option str;
  feed_url : option str;
  feed_category : option str;
  feed_language : option str
}.

(** The keys of the YAML configuration that [collect_articles] reads with
    [.get]; [None] is an absent key. *)
Record Config : Type := mk_Config {
  cfg_feeds : option (list FeedConfig);
  cfg_keywords : option (list str);
  cfg_exclude_keywords : option (list str);
  cfg_fetch_hours : option Z
}.

Record Article : Type := mk_Article {
  title : str;
  url : str;
  source : str;
  category : str;
  language : str;
  published : str;
  summary : str
}.

Record FetchError : Type := mk_FetchError {
  name : str;
  error : str
}.

(** [d[key]] raises [KeyError(key)] when the dict has no such key. *)
Inductive key_error : Type :=
| KeyError (key : str).

Definition subscript {A} (key : str) (value : option A) : pyresult key_error A :=
  match value with
  | Some v => Return v
  | None => Raise (KeyError key)
  end.

(** An exception that leaves [collect_articles]: one that [future.result()]
    raises again, or one of the date arithmetic. *)
Inductive uncaught : Type :=
| FromFetch (e : key_error)
| FromDatetime (e : Datetime.exn).

Definition reraise {E E' A} (f : E -> E') (m : pyresult E A) : pyresult E' A :=
  match m with
  | Return a => Return a
  | Raise e => Raise (f e)
  end.

(** [d.get(key, default)] on a dict literal. *)
Fixpoint dict_get {V} (d : list (str * V)) (key : str) (default : V) : V :=
  match d with
  | [] => default
  | (k, v) :: d' => if bool_decide (k = key) then v else dict_get d' key default
  end.

(** [list.sort(key=...)]: a stable sort. The stable rearrangement of a list
    is unique ([stable_sort_unique] below), so it is computed here by
    insertion, whatever algorithm the runtime uses. *)
Section Sort.
Context {A : Type} (key : A -> Z).

Fixpoint insert_by (a : A) (l : list A) : list A :=
  match l with
  | [] => [a]
  | b :: l' => if key a <=? key b then a :: b :: l' else b :: insert_by a l'
  end.

Fixpoint sort_by (l : list A) : list A :=
  match l with
  | [] => []
  | a :: l' => insert_by a (sort_by l')
  end.
End Sort.

Section Script.

(** [str.lower] *)
Variable lower : str -> str.
(** The Unicode whitespace test behind [\s] and [str.strip]. *)
Variable isspace : char -> bool.
(** [d.strftime(fmt)] *)
Variable strftime : datetime -> str -> str.

(** *** parse_entry_date *)

Fixpoint parse_entry_date_attrs (attrs : list (option struct_time))
  : pyresult Datetime.exn (option datetime) :=
  match attrs with
  | [] => Return None
  | None :: rest => parse_entry_date_attrs rest
  | Some parsed :: rest =>
    match datetime_new (tm_year parsed) (tm_mon parsed) (tm_mday parsed)
                       (tm_hour parsed) (tm_min parsed) (tm_sec parsed) utc with
    | Return d => Return (Some d)
    | Raise ValueError => parse_entry_date_attrs rest
    | Raise OverflowError => Raise OverflowError
    end
  end.

Definition parse_entry_date (entry : Entry) : pyresult Datetime.exn (option datetime) :=
  parse_entry_date_attrs [entry_published_parsed entry; entry_updated_parsed entry].

(** *** matches_keywords, matches_exclude_keywords *)

Definition matches_keywords (text : str) (keywords : list str) : bool :=
  let lower_text := lower text in
  existsb (fun kw => contains (lower kw) lower_text) keywords.

Definition matches_exclude_keywords (text : str) (exclude_keywords : list str) : bool :=
  match exclude_keywords with
  | [] => false
  | _ :: _ =>
    let lower_text := lower text in
    existsb (fun kw => contains (lower kw) lower_text) exclude_keywords
  end.

(** *** fetch_single_feed

    [parse_outcome] is what [feedparser.parse(url, agent=...)] does for the
    feed: it returns a parsed feed or raises. The two subscripts come before
    the [try], so their [KeyError] is not caught. *)
Definition fetch_single_feed (feed_config : FeedConfig)
    (parse_outcome : pyresult py_exception FeedParserDict)
  : pyresult key_error (str * list Entry * option str) :=
  let! name := subscript (u "name") (feed_name feed_config) in
  let! url := subscript (u "url") (feed_url feed_config) in
  try_except
    (let! parsed := parse_outcome in
     if bozo parsed && negb (match entries parsed with [] => false | _ => true end)
     then Return (name, [], Some (u "Parse error: " ++ bozo_exception parsed))
     else Return (name, entries parsed, None))
    (fun e => Return (name, [], Some (str_e e))).

(** *** clean_text *)

Definition LT : char := 60%N.
Definition GT : char := 62%N.
Definition SPACE : char := 32%N.
Definition NEWLINE : char := 10%N.

(** [re.sub(r"<[^>]+>", "", text)]. [pending] is [None] outside a candidate
    tag; inside one it holds the characters read since its [<], in reverse,
    which are output again if the candidate never closes. *)
Fixpoint strip_tags_from (pending : option str) (text : str) : str :=
  match text with
  | [] => match pending with None => [] | Some p => rev p end
  | c :: rest =>
    match pending with
    | None =>
      if char_eqb c LT then strip_tags_from (Some [c]) rest
      else c :: strip_tags_from None rest
    | Some p =>
      if char_eqb c GT then
        match p with
        | [_] => rev p ++ c :: strip_tags_from None rest
        | _ => strip_tags_from None rest
        end
      else strip_tags_from (Some (c :: p)) rest
    end
  end.

Definition strip_tags (text : str) : str := strip_tags_from None text.

(** [re.sub(r"\s+", " ", text)]; [in_run] says that the previous character
    was whitespace. *)
Fixpoint collapse_spaces_from (in_run : bool) (text : str) : str :=
  match text with
  | [] => []
  | c :: rest =>
    if isspace c then
      if in_run then collapse_spaces_from true rest
      else SPACE :: collapse_spaces_from true rest
    else c :: collapse_spaces_from false rest
  end.

(** [text.strip()] *)
Fixpoint lstrip (text : str) : str :=
  match text with
  | [] => []
  | c :: rest => if isspace c then lstrip rest else text
  end.

Definition strip (text : str) : str := rev (lstrip (rev (lstrip text))).

Definition clean_text (text : str) : str :=
  let text := strip_tags text in
  strip (collapse_spaces_from false text).

(** *** collect_articles *)

(** The loop state: [articles], [errors] and [seen_urls]. *)
Record State : Type := mk_State {
  articles : list Article;
  errors : list FetchError;
  seen_urls : gset str
}.

Definition initial_state : State :=
  {| articles := []; errors := []; seen_urls := ∅ |}.

(** What the loop body does with one entry: the [continue] it takes, or the
    article it appends. *)
Inductive verdict : Type :=
| SkipUrl
| SkipOld
| SkipExcluded
| SkipNoKeyword
| Accept (article : Article).

Definition published_format : str := u "%Y-%m-%d %H:%M".
Definition unknown_date : str := u "不明".

Definition entry_url (entry : Entry) : str := default [] (entry_link entry).

(** [f"{title} {summary}"] *)
Definition combined_text (entry : Entry) : str :=
  default [] (entry_title entry) ++ u " " ++ default [] (entry_summary entry).

(** The body of [for entry in entries], up to the decision. *)
Definition filter_entry (cutoff_time : datetime)
    (keywords exclude_keywords : list str)
    (name : str) (feed_config : FeedConfig)
    (seen : gset str) (entry : Entry) : pyresult uncaught verdict :=
  let url := entry_url entry in
  if negb (nonempty url) || bool_decide (url ∈ seen) then Return SkipUrl
  else
    let! pub_date := reraise FromDatetime (parse_entry_date entry) in
    if match pub_date with Some d => lt d cutoff_time | None => false end
    then Return SkipOld
    else
      let title := default [] (entry_title entry) in
      let summary := default [] (entry_summary entry) in
      let combined_text := title ++ u " " ++ summary in
      if matches_exclude_keywords combined_text exclude_keywords
      then Return SkipExcluded
      else if negb (matches_keywords combined_text keywords)
      then Return SkipNoKeyword
      else
        let! published :=
          match pub_date with
          | Some d =>
            let! local := reraise FromDatetime (astimezone d JST) in
            Return (strftime local published_format)
          | None => Return unknown_date
          end in
        Return (Accept {|
          title := clean_text title;
          url := url;
          source := name;
          category := default (u "other") (feed_category feed_config);
          language := default (u "en") (feed_language feed_config);
          published := published;
          summary := take 200 (clean_text summary)
        |}).

(** [seen_urls.add(url); articles.append(...)], or [continue]. An exception
    while the article is built ends the run, so that the state it leaves
    behind is never observed. *)
Definition apply_verdict (st : State) (v : verdict) : State :=
  match v with
  | Accept a =>
    {| articles := articles st ++ [a];
       errors := errors st;
       seen_urls := {[ url a ]} ∪ seen_urls st |}
  | _ => st
  end.

Section Run.
Variable cutoff_time : datetime.
Variables keywords exclude_keywords : list str.

Definition process_entry (name : str) (feed_config : FeedConfig)
    (st : State) (entry : Entry) : pyresult uncaught State :=
  let! v := filter_entry cutoff_time keywords exclude_keywords
                         name feed_config (seen_urls st) entry in
  Return (apply_verdict st v).

(** [for entry in entries: ...] *)
Fixpoint process_entries (name : str) (feed_config : FeedConfig)
    (entries : list Entry) (st : State) : pyresult uncaught State :=
  match entries with
  | [] => Return st
  | entry :: rest =>
    let! st' := process_entry name feed_config st entry in
    process_entries name feed_config rest st'
  end.

(** [if error:] on a [str | None]. *)
Definition truthy (error : option str) : bool :=
  match error with
  | Some e => nonempty e
  | None => false
  end.

(** The body of [for future in as_completed(futures)]. *)
Definition process_future (st : State)
    (future : FeedConfig * pyresult py_exception FeedParserDict)
  : pyresult uncaught State :=
  let feed_config := fst future in
  let! result := reraise FromFetch (fetch_single_feed feed_config (snd future)) in
  let '(name, entries, error) := result in
  if truthy error then
    Return {| articles := articles st;
              errors := errors st ++ [{| name := name; error := default [] error |}];
              seen_urls := seen_urls st |}
  else process_entries name feed_config entries st.

Fixpoint process_futures
    (completed : list (FeedConfig * pyresult py_exception FeedParserDict))
    (st : State) : pyresult uncaught State :=
  match completed with
  | [] => Return st
  | future :: rest =>
    let! st' := process_future st future in
    process_futures rest st'
  end.
End Run.

Definition category_order : list (str * Z) :=
  [ (u "official", 0); (u "domestic", 1); (u "international", 2);
    (u "tech", 3); (u "reddit", 4); (u "industry", 5); (u "other", 6) ].

(** [lambda a: category_order.get(a["category"], 99)] *)
Definition sort_key (a : Article) : Z := dict_get category_order (category a) 99.

(** [completed] is the order in which [as_completed] yields the futures:
    the feeds of the configuration in some order, each with what
    [feedparser.parse] did for it. *)
Definition as_completed (config : Config)
    (completed : list (FeedConfig * pyresult py_exception FeedParserDict)) : Prop :=
  map fst completed ≡ₚ default [] (cfg_feeds config).

(** The state when the loop over the futures ends, before the sort. *)
Definition gather_articles (config : Config) (target_date : datetime)
    (completed : list (FeedConfig * pyresult py_exception FeedParserDict))
  : pyresult uncaught State :=
  let keywords := default [] (cfg_keywords config) in
  let exclude_keywords := default [] (cfg_exclude_keywords config) in
  let fetch_hours := default 48 (cfg_fetch_hours config) in
  let! cutoff_time := reraise FromDatetime (sub_hours target_date fetch_hours) in
  process_futures cutoff_time keywords exclude_keywords completed initial_state.

Definition collect_articles (config : Config) (target_date : datetime)
    (completed : list (FeedConfig * pyresult py_exception FeedParserDict))
  : pyresult uncaught (list Article * list FetchError) :=
  let! st := gather_articles config target_date completed in
  Return (sort_by sort_key (articles st), errors st).

(** *** category_label *)

Definition labels : list (str * str) :=
  [ (u "official", u "🏢 AI企業公式");
    (u "domestic", u "📰 国内メディア");
    (u "international", u "🌐 海外メディア");
    (u "tech", u "💻 技術コミュニティ");
    (u "reddit", u "💬 Reddit");
    (u "industry", u "🇯🇵 業界特化");
    (u "other", u "📋 その他") ].

Definition category_label (category : str) : str :=
  dict_get labels category category.

(** *** generate_markdown *)

Definition WEEKDAY_JA : list str :=
  [u "月"; u "火"; u "水"; u "木"; u "金"; u "土"; u "日"].

(** [f"- [ ] [{article['title']} | {article['source']}]({article['url']})"] *)
Definition checklist_line (article : Article) : str :=
  u "- [ ] [" ++ title article ++ u " | " ++ source article
    ++ u "](" ++ url article ++ u ")".

(** The lines that the loop body appends for one article after the
    category heading. *)
Definition article_lines (article : Article) : list str :=
  [checklist_line article]
  ++ (if nonempty (summary article)
      then [u "      " ++ take 150 (summary article)] else [])
  ++ [[]].

(** [for article in articles: ...], with the loop variable
    [current_category]. *)
Fixpoint render_articles (current_category : str) (articles : list Article)
  : list str :=
  match articles with
  | [] => []
  | article :: rest =>
    (if bool_decide (category article ≠ current_category)
     then [u "## " ++ category_label (category article); []] else [])
    ++ article_lines article
    ++ render_articles (category article) rest
  end.

(** [for err in errors: ...] *)
Definition error_line (err : FetchError) : str :=
  u "- **" ++ name err ++ u "**: " ++ error err.

(** The list [lines]; [now] is [datetime.now(JST)]. *)
Definition generate_lines (articles : list Article) (errors : list FetchError)
    (target_date now : datetime) : list str :=
  let weekday := nth (Z.to_nat (weekday target_date)) WEEKDAY_JA [] in
  let date_jp :=
    str_of_int (year target_date) ++ u "年"
    ++ str_of_int (month target_date) ++ u "月"
    ++ str_of_int (day target_date) ++ u "日（" ++ weekday ++ u "）" in
  [ u "# AI News — " ++ date_jp;
    [];
    u "> 自動収集: " ++ str_of_int (Z.of_nat (length articles))
      ++ u " 件 / エラー: " ++ str_of_int (Z.of_nat (length errors)) ++ u " 件";
    u "> 収集時刻: " ++ strftime now (u "%Y-%m-%d %H:%M JST");
    [] ]
  ++ (match articles with
      | [] => [u "本日の該当記事はありませんでした。"; []]
      | _ :: _ => render_articles [] articles
      end)
  ++ (match errors with
      | [] => []
      | _ :: _ =>
        [u "---"; []; u "## ⚠ 取得エラー"; []] ++ map error_line errors ++ [[]]
      end).

Definition generate_markdown (articles : list Article) (errors : list FetchError)
    (target_date now : datetime) : str :=
  join [NEWLINE] (generate_lines articles errors target_date now).

(** *** main

    [datetime.strptime(args.date, "%Y-%m-%d").replace(tzinfo=JST)] for a
    valid date: midnight of that day on the JST wall clock. *)
Definition target_date_of (y m d : Z) : datetime :=
  {| wall := (ymd2ord y m d - 1) * us_per_day; utcoffset := JST |}.

(** *** Vocabulary of the statements *)

(** The order a sort by [key] establishes. *)
Definition key_le {A} (key : A -> Z) : relation A := fun a b => key a <= key b.

(** The recency test of the loop body. *)
Definition too_old (pub_date : option datetime) (cutoff_time : datetime) : bool :=
  match pub_date with
  | Some d => lt d cutoff_time
  | None => false
  end.

(** Everything that holds of an entry the loop body accepts. *)
Record accepted (cutoff_time : datetime) (keywords exclude_keywords : list str)
    (name : str) (feed_config : FeedConfig) (seen : gset str)
    (entry : Entry) (a : Article) : Prop := {
  acc_url : url a = entry_url entry;
  acc_url_nonempty : entry_url entry <> [];
  acc_url_fresh : entry_url entry ∉ seen;
  acc_recent : exists pub_date,
      parse_entry_date entry = Return pub_date /\
      too_old pub_date cutoff_time = false;
  acc_not_excluded :
    matches_exclude_keywords (combined_text entry) exclude_keywords = false;
  acc_keyword : matches_keywords (combined_text entry) keywords = true;
  acc_title : title a = clean_text (default [] (entry_title entry));
  acc_summary : summary a = take 200 (clean_text (default [] (entry_summary entry)));
  acc_source : source a = name;
  acc_category : category a = default (u "other") (feed_category feed_config);
  acc_language : language a = default (u "en") (feed_language feed_config)
}.

(** The invariant that ties [seen_urls] to [articles]. *)
Definition urls_inv (st : State) : Prop :=
  NoDup (map url (articles st)) /\
  forall x, x ∈ seen_urls st <-> x ∈ map url (articles st).

(** Where an article of the run comes from: an entry of a fetched feed
    that the loop body accepted. *)
Definition from_run (cutoff_time : datetime) (keywords exclude_keywords : list str)
    (completed : list (FeedConfig * pyresult py_exception FeedParserDict))
    (a : Article) : Prop :=
  exists feed_config parse_outcome name ents err entry seen,
    (feed_config, parse_outcome) ∈ completed /\
    feed_name feed_config = Some name /\
    fetch_single_feed feed_config parse_outcome = Return (name, ents, err) /\
    truthy err = false /\
    entry ∈ ents /\
    accepted cutoff_time keywords exclude_keywords
             name feed_config seen entry a.

(** The first six fields of [parsed], read as a UTC [datetime]. *)
Definition utc_of_struct_time (parsed : struct_time) : pyresult Datetime.exn datetime :=
  datetime_new (tm_year parsed) (tm_mon parsed) (tm_mday parsed)
               (tm_hour parsed) (tm_min parsed) (tm_sec parsed) utc.

(** An attribute that gives no timestamp: absent, or rejected by
    [datetime] with a [ValueError]. *)
Definition no_timestamp (attr : option struct_time) : Prop :=
  attr = None \/ exists parsed, attr = Some parsed /\ utc_of_struct_time parsed = Raise ValueError.

(** The keys of [category_order]. *)
Definition known_categories : list str := map fst category_order.

(** Reading a digest back: the checklist lines are the lines of the form
    [- [ ] [title | source](url)]; the title ends at the first [" | "] and
    the source at the first ["]("] after it. *)
Definition triple (a : Article) : str * str * str := (title a, source a, url a).

Definition parse_checklist_line (line : str) : option (str * str * str) :=
  match strip_prefix (u "- [ ] [") line with
  | None => None
  | Some rest =>
    match strip_last 41%N rest with
    | None => None
    | Some body =>
      match partition_at (u " | ") body with
      | None => None
      | Some (title, rest) =>
        match partition_at (u "](") rest with
        | None => None
        | Some (source, url) => Some (title, source, url)
        end
      end
    end
  end.

Definition parse_digest (digest : str) : list (str * str * str) :=
  omap parse_checklist_line (split_char NEWLINE digest).

(** A string that stays on one line. *)
Definition one_line (s : str) : Prop := NEWLINE ∉ s.

#[export] Instance one_line_dec s : Decision (one_line s).
Proof. unfold one_line. apply _. Defined.

(** The fields of an article that the renderer prints are on one line, and
    title and source leave the separators of the checklist line
    unambiguous: no [" | "] in the title or astride its end, no ["]("] in
    the source. *)
Record readable (a : Article) : Prop := {
  rd_title : one_line (title a);
  rd_source : one_line (source a);
  rd_url : one_line (url a);
  rd_summary : one_line (summary a);
  rd_category : one_line (category a);
  rd_title_sep : contains (u " | ") (title a ++ u " |") = false;
  rd_source_sep : contains (u "](") (source a) = false
}.

Definition readable_error (err : FetchError) : Prop :=
  one_line (name err) /\ one_line (error err).

#[export] Instance readable_dec a : Decision (readable a).
Proof.
  refine (cast_if (decide (
    one_line (title a) /\ one_line (source a) /\ one_line (url a) /\
    one_line (summary a) /\ one_line (category a) /\
    contains (u " | ") (title a ++ u " |") = false /\
    contains (u "](") (source a) = false))).
  - destruct a0 as (? & ? & ? & ? & ? & ? & ?). by split.
  - intros []. apply n. by repeat split.
Defined.

#[export] Instance readable_error_dec err : Decision (readable_error err).
Proof. unfold readable_error. apply _. Defined.

(** An input on which one URL is met twice: first on an entry that is too
    old, then on an undated entry whose text is the include keyword. *)
Definition twice_url : str := u "https://example.org/post".

Definition twice_old : Entry :=
  {| entry_link := Some twice_url;
     entry_title := Some (u "a"); entry_summary := Some (u "b");
     entry_published_parsed := Some (mk_struct_time 2000 1 1 0 0 0);
     entry_updated_parsed := None |}.

Definition twice_again : Entry :=
  {| entry_link := Some twice_url;
     entry_title := Some (u "a"); entry_summary := Some (u "b");
     entry_published_parsed := None;
     entry_updated_parsed := None |}.

Definition twice_feed : FeedConfig :=
  {| feed_name := Some (u "feed"); feed_url := Some (u "https://example.org/rss");
     feed_category := None; feed_language := None |}.

Definition twice_config : Config :=
  {| cfg_feeds := Some [twice_feed];
     cfg_keywords := Some [combined_text twice_again];
     cfg_exclude_keywords := None;
     cfg_fetch_hours := None |}.

Definition twice_completed : list (FeedConfig * pyresult py_exception FeedParserDict) :=
  [(twice_feed,
    Return {| bozo := false; bozo_exception := [];
              entries := [twice_old; twice_again] |})].

Definition twice_target : datetime := target_date_of 2026 2 17.

(** What [clean_text] leaves behind. A tag is a match of [<[^>]+>]: a [<],
    one or more characters other than [>], and a [>]. *)
Definition has_tag (s : str) : Prop :=
  exists pre body post,
    s = pre ++ LT :: body ++ GT :: post /\ body <> [] /\ GT ∉ body.

(** Every [<] is directly followed by [>] or has no [>] after it. *)
Fixpoint no_tag (s : str) : Prop :=
  match s with
  | [] => True
  | c :: rest =>
    (c = LT -> (exists rest', rest = GT :: rest') \/ GT ∉ rest) /\ no_tag rest
  end.

(** No two whitespace characters in a row. *)
Fixpoint single_spaced (s : str) : Prop :=
  match s with
  | [] => True
  | a :: rest =>
    match rest with
    | [] => True
    | b :: _ => isspace a = true -> isspace b = false
    end /\ single_spaced rest
  end.

(** No whitespace at either end. *)
Definition trimmed (s : str) : Prop :=
  (forall c rest, s = c :: rest -> isspace c = false) /\
  (forall c init, s = init ++ [c] -> isspace c = false).

(** The six fields fit C [int]s. *)
Definition fits_c_int (parsed : struct_time) : bool :=
  forallb c_int [tm_year parsed; tm_mon parsed; tm_mday parsed;
                 tm_hour parsed; tm_min parsed; tm_sec parsed].

(** The error a completed fetch adds to [errors], if any. *)
Definition reported_error
    (future : FeedConfig * pyresult py_exception FeedParserDict)
  : option FetchError :=
  match fetch_single_feed (fst future) (snd future) with
  | Return (name, _, Some msg) =>
    if nonempty msg then Some {| name := name; error := msg |} else None
  | _ => None
  end.

(** The entries a completed fetch hands to the filter. *)
Definition fetched_entries
    (future : FeedConfig * pyresult py_exception FeedParserDict) : list Entry :=
  match fetch_single_feed (fst future) (snd future) with
  | Return (_, ents, err) => if truthy err then [] else ents
  | Raise _ => []
  end.

(** An entry that passes every test of the loop body but the one on the
    seen URLs. *)
Definition qualifies (cutoff_time : datetime) (keywords exclude_keywords : list str)
    (entry : Entry) : Prop :=
  entry_url entry <> [] /\
  (exists pub_date, parse_entry_date entry = Return pub_date /\
                    too_old pub_date cutoff_time = false) /\
  matches_exclude_keywords (combined_text entry) exclude_keywords = false /\
  matches_keywords (combined_text entry) keywords = true.

(** The categories at which the rendering loop starts a section: those of
    the articles whose category differs from the one before. *)
Fixpoint section_starts (current_category : str) (arts : list Article) : list str :=
  match arts with
  | [] => []
  | a :: rest =>
    (if bool_decide (category a <> current_category) then [category a] else [])
    ++ section_starts (category a) rest
  end.

(** A line that begins like a checklist line. *)
Definition is_checklist (line : str) : Prop := startswith (u "- [ ] [") line = true.

#[export] Instance is_checklist_dec line : Decision (is_checklist line).
Proof. unfold is_checklist. apply _. Defined.

(** An entry whose date attributes, where present, have fields in the C
    [int] range and a year that leaves room for the shift to JST. *)
Definition sane_date (parsed : struct_time) : Prop :=
  fits_c_int parsed = true /\ tm_year parsed <= 9998.

Definition sane_entry (entry : Entry) : Prop :=
  (forall parsed, entry_published_parsed entry = Some parsed -> sane_date parsed) /\
  (forall parsed, entry_updated_parsed entry = Some parsed -> sane_date parsed).

(** A line that begins like a bullet of the error section. *)
Definition is_error_bullet (line : str) : Prop := startswith (u "- **") line = true.

#[export] Instance is_error_bullet_dec line : Decision (is_error_bullet line).
Proof. unfold is_error_bullet. apply _. Defined.

(** ** Verification *)

(** *** The error monad *)

Lemma bind_Return_inv {E A B} (m : pyresult E A) (k : A -> pyresult E B) b :
  bind m k = Return b -> exists a, m = Return a /\ k a = Return b.
Proof. destruct m as [a|e]; simpl; [eauto | discriminate]. Qed.

Lemma reraise_Return_inv {E E' A} (f : E -> E') (m : pyresult E A) a :
  reraise f m = Return a -> m = Return a.
Proof. destruct m; simpl; congruence. Qed.

Ltac bind_inv H :=
  let a := fresh "a" in
  let Ha := fresh "Ha" in
  apply bind_Return_inv in H; destruct H as (a & Ha & H).

(** *** Strings *)

Lemma startswith_refl s : startswith s s = true.
Proof.
  induction s as [|c s IH]; simpl; [done|].
  unfold char_eqb. by rewrite N.eqb_refl.
Qed.

Lemma contains_refl s : contains s s = true.
Proof.
  destruct s as [|c s]; [reflexivity|].
  change (contains (c :: s) (c :: s))
    with (startswith (c :: s) (c :: s) || contains (c :: s) s).
  by rewrite startswith_refl.
Qed.

Lemma startswith_app p s : startswith p (p ++ s) = true.
Proof.
  induction p as [|c p IH]; simpl; [done|].
  unfold char_eqb. by rewrite N.eqb_refl.
Qed.

(** [startswith p] looks at the first [length p] characters only. *)
Lemma startswith_take p s : startswith p s = startswith p (take (length p) s).
Proof.
  revert s. induction p as [|a p IH]; intros [|b s]; simpl; try done.
  by rewrite <- IH.
Qed.

Lemma partition_at_unfold sep s :
  partition_at sep s =
  if startswith sep s then Some ([], drop (length sep) s)
  else
    match s with
    | [] => None
    | x :: s' =>
      match partition_at sep s' with
      | Some (a, b) => Some (x :: a, b)
      | None => None
      end
    end.
Proof. by destruct s. Qed.

Lemma contains_cons sep x s :
  contains sep (x :: s) = startswith sep (x :: s) || contains sep s.
Proof. reflexivity. Qed.

(** The separator is found where it was put, when it does not occur
    earlier: neither inside [x] nor astride the end of [x]. *)
Lemma partition_at_app sep x y :
  contains sep (x ++ removelast sep) = false ->
  partition_at sep (x ++ sep ++ y) = Some (x, y).
Proof.
  induction x as [|c x IH]; intros Hfree.
  - rewrite partition_at_unfold. simpl.
    by rewrite startswith_app, drop_app_length.
  - change ((c :: x) ++ removelast sep) with (c :: (x ++ removelast sep)) in Hfree.
    rewrite contains_cons in Hfree.
    apply orb_false_iff in Hfree as [Hhead Htail].
    rewrite partition_at_unfold.
    assert (Hsw : startswith sep ((c :: x) ++ sep ++ y) = false).
    { destruct sep as [|s0 sep'] eqn:Hsep; [done|].
      rewrite <- Hsep in *.
      assert (Hne : sep <> []) by (rewrite Hsep; done).
      assert (Hlen : (length sep <= length ((c :: x) ++ removelast sep))%nat).
      { rewrite (app_removelast_last s0 Hne) at 1.
        rewrite !length_app. simpl. lia. }
      assert (Heq : (c :: x) ++ sep ++ y
                    = ((c :: x) ++ removelast sep) ++ [List.last sep s0] ++ y).
      { rewrite (app_removelast_last s0 Hne) at 1.
        by rewrite <- !app_assoc. }
      rewrite startswith_take, Heq, take_app_le by done.
      by rewrite <- startswith_take. }
    rewrite Hsw. simpl. by rewrite (IH Htail).
Qed.

Lemma strip_prefix_app p s : strip_prefix p (p ++ s) = Some s.
Proof. unfold strip_prefix. by rewrite startswith_app, drop_app_length. Qed.

Lemma strip_prefix_None p s : startswith p s = false -> strip_prefix p s = None.
Proof. unfold strip_prefix. by intros ->. Qed.

Lemma strip_last_snoc c s : strip_last c (s ++ [c]) = Some s.
Proof.
  unfold strip_last. rewrite rev_app_distr. simpl.
  unfold char_eqb. by rewrite N.eqb_refl, rev_involutive.
Qed.

Lemma split_char_one_line c s : c ∉ s -> split_char c s = [s].
Proof.
  induction s as [|x s IH]; intros Hc; simpl; [done|].
  apply not_elem_of_cons in Hc as [Hne Hc].
  unfold char_eqb. destruct (N.eqb_spec x c) as [->|_]; [done|].
  by rewrite IH.
Qed.

Lemma split_char_app c s t :
  c ∉ s -> split_char c (s ++ c :: t) = s :: split_char c t.
Proof.
  induction s as [|x s IH]; intros Hc; simpl.
  - unfold char_eqb. by rewrite N.eqb_refl.
  - apply not_elem_of_cons in Hc as [Hne Hc].
    unfold char_eqb. destruct (N.eqb_spec x c) as [->|_]; [done|].
    by rewrite IH.
Qed.

(** Splitting undoes joining, for lines without the separator. *)
Lemma split_char_join c lines :
  lines <> [] -> Forall (fun l => c ∉ l) lines ->
  split_char c (join [c] lines) = lines.
Proof.
  induction lines as [|l lines IH]; intros Hne Hall; [done|].
  apply Forall_cons in Hall as [Hl Hall].
  destruct lines as [|l' lines].
  - simpl. by apply split_char_one_line.
  - change (join [c] (l :: l' :: lines)) with (l ++ c :: join [c] (l' :: lines)).
    rewrite split_char_app by done.
    by rewrite IH.
Qed.

Lemma utf8_decode_ascii bs :
  Forall (fun b => (b < 128)%N) bs -> utf8_decode bs = bs.
Proof.
  induction 1 as [|b bs Hb _ IH]; simpl; [done|].
  apply N.ltb_lt in Hb. by rewrite Hb, IH.
Qed.

Lemma bytes_of_uint d :
  Forall (fun b => (48 <= b < 58)%N) (bytes_of (NilEmpty.string_of_uint d)).
Proof.
  induction d; simpl; try constructor; try done; by vm_compute.
Qed.

(** The decimal digits of an [int], with its sign, hold no line break. *)
Lemma str_of_int_no_newline n : 10%N ∉ str_of_int n.
Proof.
  assert (Hbytes : forall d, Forall (fun b => (45 <= b < 58)%N)
                              (bytes_of (NilZero.string_of_uint d))).
  { intros d.
    assert (Hd := bytes_of_uint d).
    destruct d; simpl;
      try (eapply Forall_impl; [exact Hd|]; simpl; intros; lia).
    repeat constructor; by vm_compute. }
  assert (Hint : Forall (fun b => (45 <= b < 58)%N)
                   (bytes_of (NilZero.string_of_int (Z.to_int n)))).
  { destruct (Z.to_int n) as [d|d]; simpl; [apply Hbytes|].
    constructor; [by vm_compute|apply Hbytes]. }
  unfold str_of_int, u. rewrite utf8_decode_ascii.
  - intros Hin. rewrite Forall_forall in Hint. apply Hint in Hin. lia.
  - eapply Forall_impl; [exact Hint|]. simpl. intros; lia.
Qed.

(** *** Keyword matching *)

Lemma matches_keywords_self text : matches_keywords text [text] = true.
Proof. unfold matches_keywords. simpl. by rewrite contains_refl. Qed.

Lemma matches_keywords_nil text : matches_keywords text [] = false.
Proof. reflexivity. Qed.

Lemma matches_exclude_keywords_nil text : matches_exclude_keywords text [] = false.
Proof. reflexivity. Qed.

(** The guard [if not exclude_keywords] changes nothing: both functions
    compute the same test. *)
Lemma matches_exclude_keywords_eq text kws :
  matches_exclude_keywords text kws = matches_keywords text kws.
Proof. destruct kws; reflexivity. Qed.

Lemma matches_keywords_spec text kws :
  matches_keywords text kws = true <->
  exists kw, kw ∈ kws /\ contains (lower kw) (lower text) = true.
Proof.
  unfold matches_keywords. rewrite existsb_exists.
  split; intros (kw & Hin & Hc); exists kw; split; auto;
    by apply list_elem_of_In.
Qed.

(** *** fetch_single_feed *)

Lemma fetch_single_feed_parsed feed_config name url parsed :
  feed_name feed_config = Some name ->
  feed_url feed_config = Some url ->
  fetch_single_feed feed_config (Return parsed) =
  Return (if bozo parsed && negb (match entries parsed with [] => false | _ => true end)
          then (name, [], Some (u "Parse error: " ++ bozo_exception parsed))
          else (name, entries parsed, None)).
Proof.
  intros Hname Hurl. unfold fetch_single_feed. rewrite Hname, Hurl.
  unfold subscript, bind, try_except.
  by destruct (bozo parsed), (entries parsed).
Qed.

Lemma fetch_single_feed_raised feed_config name url e :
  feed_name feed_config = Some name ->
  feed_url feed_config = Some url ->
  fetch_single_feed feed_config (Raise e) = Return (name, [], Some (str_e e)).
Proof.
  intros Hname Hurl. unfold fetch_single_feed. by rewrite Hname, Hurl.
Qed.

Lemma fetch_single_feed_total feed_config name url parse_outcome :
  feed_name feed_config = Some name ->
  feed_url feed_config = Some url ->
  exists r, fetch_single_feed feed_config parse_outcome = Return r.
Proof.
  intros Hname Hurl. destruct parse_outcome as [parsed|e].
  - rewrite (fetch_single_feed_parsed _ _ _ _ Hname Hurl). eauto.
  - rewrite (fetch_single_feed_raised _ _ _ _ Hname Hurl). eauto.
Qed.

(** The two subscripts before the [try]. *)
Lemma fetch_single_feed_no_name feed_config parse_outcome :
  feed_name feed_config = None ->
  fetch_single_feed feed_config parse_outcome = Raise (KeyError (u "name")).
Proof. intros Hname. unfold fetch_single_feed. by rewrite Hname. Qed.

Lemma fetch_single_feed_no_url feed_config name parse_outcome :
  feed_name feed_config = Some name ->
  feed_url feed_config = None ->
  fetch_single_feed feed_config parse_outcome = Raise (KeyError (u "url")).
Proof. intros Hname Hurl. unfold fetch_single_feed. by rewrite Hname, Hurl. Qed.

Lemma fetch_single_feed_keys feed_config parse_outcome r :
  fetch_single_feed feed_config parse_outcome = Return r ->
  exists name url,
    feed_name feed_config = Some name /\ feed_url feed_config = Some url.
Proof.
  destruct (feed_name feed_config) as [name|] eqn:Hname.
  - destruct (feed_url feed_config) as [url|] eqn:Hurl; [eauto|].
    by rewrite (fetch_single_feed_no_url _ _ _ Hname Hurl).
  - by rewrite (fetch_single_feed_no_name _ _ Hname).
Qed.

Lemma fetch_single_feed_name feed_config parse_outcome name ents err :
  fetch_single_feed feed_config parse_outcome = Return (name, ents, err) ->
  feed_name feed_config = Some name.
Proof.
  intros H.
  destruct (fetch_single_feed_keys _ _ _ H) as (name' & url & Hname & Hurl).
  destruct parse_outcome as [parsed|e].
  - rewrite (fetch_single_feed_parsed _ _ _ _ Hname Hurl) in H.
    destruct (bozo parsed && _); injection H as <- _ _; done.
  - rewrite (fetch_single_feed_raised _ _ _ _ Hname Hurl) in H.
    injection H as <- _ _. done.
Qed.

Lemma fetch_single_feed_raises feed_config parse_outcome e :
  fetch_single_feed feed_config parse_outcome = Raise e ->
  (feed_name feed_config = None /\ e = KeyError (u "name")) \/
  (feed_name feed_config <> None /\ feed_url feed_config = None /\
   e = KeyError (u "url")).
Proof.
  destruct (feed_name feed_config) as [name|] eqn:Hname.
  - destruct (feed_url feed_config) as [url|] eqn:Hurl.
    + destruct (fetch_single_feed_total _ _ _ parse_outcome Hname Hurl) as [r ->].
      done.
    + rewrite (fetch_single_feed_no_url _ _ _ Hname Hurl). intros [= <-].
      by right.
  - rewrite (fetch_single_feed_no_name _ _ Hname). intros [= <-]. by left.
Qed.

(** *** The entry filter *)


Lemma nonempty_false (s : str) : nonempty s = false <-> s = [].
Proof. destruct s; simpl; split; congruence. Qed.


Lemma filter_entry_Accept cutoff_time keywords exclude_keywords name feed_config
    seen entry a :
  filter_entry cutoff_time keywords exclude_keywords name feed_config seen entry
    = Return (Accept a) ->
  accepted cutoff_time keywords exclude_keywords name feed_config seen entry a.
Proof.
  unfold filter_entry. intros H. cbv zeta in H.
  change (default [] (entry_title entry) ++ u " " ++ default [] (entry_summary entry))
    with (combined_text entry) in H.
  destruct (nonempty (entry_url entry)) eqn:Hne; simpl in H; [|discriminate].
  destruct (bool_decide (entry_url entry ∈ seen)) eqn:Hseen; simpl in H;
    [discriminate|].
  apply bool_decide_eq_false in Hseen.
  bind_inv H. apply reraise_Return_inv in Ha.
  change (match a0 with Some d => lt d cutoff_time | None => false end)
    with (too_old a0 cutoff_time) in H.
  destruct (too_old a0 cutoff_time) eqn:Hold; [discriminate|].
  destruct (matches_exclude_keywords (combined_text entry) exclude_keywords)
    eqn:Hex; [discriminate|].
  destruct (matches_keywords (combined_text entry) keywords) eqn:Hkw;
    simpl in H; [|discriminate].
  bind_inv H. injection H as <-.
  split; simpl; auto.
  - intros Hnil. rewrite Hnil in Hne. discriminate.
  - eauto.
Qed.

(** *** The loop over the entries of one feed *)

Section RunFacts.
Variable cutoff_time : datetime.
Variables keywords exclude_keywords : list str.

Local Abbreviation entry_step := (process_entry cutoff_time keywords exclude_keywords).
Local Abbreviation entries_loop := (process_entries cutoff_time keywords exclude_keywords).
Local Abbreviation future_step := (process_future cutoff_time keywords exclude_keywords).
Local Abbreviation futures_loop := (process_futures cutoff_time keywords exclude_keywords).
Local Abbreviation decide_entry := (filter_entry cutoff_time keywords exclude_keywords).
Local Abbreviation accepted_here := (accepted cutoff_time keywords exclude_keywords).
Local Abbreviation from_here := (from_run cutoff_time keywords exclude_keywords).

(** One step either leaves the state as it is, or appends one accepted
    article and marks its URL. *)
Lemma process_entry_cases name feed_config st entry st' :
  entry_step name feed_config st entry = Return st' ->
  (st' = st /\
   exists v, decide_entry name feed_config (seen_urls st) entry = Return v /\
             forall a, v <> Accept a) \/
  (exists a,
      accepted_here name feed_config (seen_urls st) entry a /\
      articles st' = articles st ++ [a] /\
      errors st' = errors st /\
      seen_urls st' = {[ url a ]} ∪ seen_urls st).
Proof.
  unfold process_entry. intros H. bind_inv H.
  injection H as <-.
  destruct a as [| | | |a].
  5: { right. exists a. split; [by apply filter_entry_Accept|done]. }
  all: left; split; [done|]; eexists; split; [done|]; congruence.
Qed.

(** The articles a feed contributes: a suffix of accepted ones. *)
Lemma process_entries_appends name feed_config ents st st' :
  entries_loop name feed_config ents st = Return st' ->
  exists new,
    articles st' = articles st ++ new /\
    errors st' = errors st /\
    Forall (fun a => exists entry seen,
                entry ∈ ents /\ accepted_here name feed_config seen entry a) new.
Proof.
  revert st. induction ents as [|entry rest IH]; intros st H; simpl in H.
  - injection H as <-. exists []. by rewrite app_nil_r.
  - bind_inv H.
    destruct (IH _ H) as (new & Harts & Herrs & Hnew).
    assert (Hweak : Forall (fun a0 => exists entry0 seen,
                entry0 ∈ entry :: rest /\ accepted_here name feed_config seen entry0 a0) new).
    { eapply Forall_impl; [exact Hnew|].
      intros x (e0 & sn & Hin & Hacc). exists e0, sn. split; [by right|done]. }
    destruct (process_entry_cases _ _ _ _ _ Ha) as [[-> _]|(b & Hacc & Hb & Hbe & _)].
    + exists new. done.
    + exists (b :: new). rewrite Harts, Hb, <- app_assoc. simpl.
      split; [done|]. split; [congruence|].
      constructor; [|done]. exists entry, (seen_urls st). split; [by left|done].
Qed.


Lemma urls_inv_initial : urls_inv initial_state.
Proof.
  split; simpl; [constructor|].
  intros x. split; [set_solver|]. by intros ?%elem_of_nil.
Qed.

Lemma process_entry_urls_inv name feed_config st entry st' :
  urls_inv st ->
  entry_step name feed_config st entry = Return st' ->
  urls_inv st'.
Proof.
  intros [Hnd Hseen] H.
  destruct (process_entry_cases _ _ _ _ _ H)
    as [[-> _]|(a & Hacc & Harts & _ & Hs)]; [done|].
  destruct Hacc as [Hurl _ Hfresh _ _ _ _ _ _ _ _].
  rewrite <- Hurl in Hfresh.
  split.
  - rewrite Harts, map_app. simpl.
    apply NoDup_app. split; [done|]. split; [|apply NoDup_singleton].
    intros x Hx ->%list_elem_of_singleton. by apply Hfresh, Hseen.
  - intros x. rewrite Hs, Harts, map_app, elem_of_union, elem_of_app,
      elem_of_singleton, Hseen. simpl. rewrite list_elem_of_singleton. tauto.
Qed.

Lemma process_entries_urls_inv name feed_config ents st st' :
  urls_inv st ->
  entries_loop name feed_config ents st = Return st' ->
  urls_inv st'.
Proof.
  revert st. induction ents as [|entry rest IH]; intros st Hinv H; simpl in H.
  - by injection H as <-.
  - bind_inv H. eapply IH; [|exact H].
    eapply process_entry_urls_inv; eauto.
Qed.

(** The two ways a future is consumed. *)
Lemma process_future_cases st feed_config parse_outcome st' :
  future_step st (feed_config, parse_outcome) = Return st' ->
  exists name ents err,
    feed_name feed_config = Some name /\
    fetch_single_feed feed_config parse_outcome = Return (name, ents, err) /\
    ((truthy err = true /\
      articles st' = articles st /\ seen_urls st' = seen_urls st /\
      errors st' = errors st ++ [{| name := name; error := default [] err |}]) \/
     (truthy err = false /\
      entries_loop name feed_config ents st = Return st')).
Proof.
  unfold process_future. cbn [fst snd]. intros H.
  destruct (fetch_single_feed feed_config parse_outcome)
    as [[[name ents] err]|e] eqn:Hfetch; [|discriminate H].
  exists name, ents, err.
  split; [by eapply fetch_single_feed_name|]. split; [done|].
  unfold reraise, bind in H.
  destruct (truthy err) eqn:Herr.
  - injection H as <-. by left.
  - by right.
Qed.

Lemma process_future_urls_inv st future st' :
  urls_inv st -> future_step st future = Return st' -> urls_inv st'.
Proof.
  destruct future as [feed_config parse_outcome]. intros Hinv H.
  destruct (process_future_cases _ _ _ _ H)
    as (name & ents & err & _ & _ & [(_ & Ha & Hs & _)|[_ Hloop]]).
  - destruct Hinv as [Hnd Hseen]. split; [by rewrite Ha|].
    intros x. by rewrite Ha, Hs.
  - eapply process_entries_urls_inv; eauto.
Qed.

Lemma process_futures_urls_inv completed st st' :
  urls_inv st -> futures_loop completed st = Return st' -> urls_inv st'.
Proof.
  revert st. induction completed as [|future rest IH]; intros st Hinv H;
    simpl in H.
  - by injection H as <-.
  - bind_inv H. eapply IH; [|exact H].
    eapply process_future_urls_inv; eauto.
Qed.


Lemma from_run_cons future completed a :
  from_here completed a -> from_here (future :: completed) a.
Proof.
  intros (fc & po & nm & ents & err & e & sn & Hin & H).
  exists fc, po, nm, ents, err, e, sn. split; [by right|done].
Qed.

Lemma process_futures_appends completed st st' :
  futures_loop completed st = Return st' ->
  exists new,
    articles st' = articles st ++ new /\ Forall (from_here completed) new.
Proof.
  revert st. induction completed as [|[fc po] rest IH]; intros st H; simpl in H.
  - injection H as <-. exists []. by rewrite app_nil_r.
  - bind_inv H.
    destruct (IH _ H) as (new & Harts & Hnew).
    assert (Hweak : Forall (from_here ((fc, po) :: rest)) new).
    { eapply Forall_impl; [exact Hnew|]. intros x. apply from_run_cons. }
    destruct (process_future_cases _ _ _ _ Ha)
      as (nm & ents & err & Hnm & Hfetch & [(_ & Hsame & _)|[Herr Hloop]]).
    + exists new. by rewrite Harts, Hsame.
    + destruct (process_entries_appends _ _ _ _ _ Hloop)
        as (mid & Hmid & _ & Hfrom).
      exists (mid ++ new). rewrite Harts, Hmid, <- app_assoc.
      split; [done|]. apply Forall_app. split; [|done].
      eapply Forall_impl; [exact Hfrom|].
      intros x (e & sn & Hin & Hacc).
      exists fc, po, nm, ents, err, e, sn. split; [by left|done].
Qed.

End RunFacts.

(** *** Sorting *)

Section SortFacts.
Context {A : Type} (key : A -> Z).

Lemma insert_by_perm a l : insert_by key a l ≡ₚ a :: l.
Proof.
  induction l as [|b l IH]; simpl; [done|].
  destruct (key a <=? key b); [done|].
  rewrite IH. apply Permutation_swap.
Qed.

Lemma sort_by_perm l : sort_by key l ≡ₚ l.
Proof.
  induction l as [|a l IH]; simpl; [done|].
  by rewrite insert_by_perm, IH.
Qed.

Lemma insert_by_sorted a l :
  StronglySorted (key_le key) l -> StronglySorted (key_le key) (insert_by key a l).
Proof.
  induction l as [|b l IH]; simpl; intros Hs.
  - repeat constructor.
  - apply StronglySorted_inv in Hs as [Hl Hb].
    destruct (key a <=? key b) eqn:Hab.
    + apply Z.leb_le in Hab. constructor; [by constructor|].
      constructor; [done|].
      eapply Forall_impl; [exact Hb|]. unfold key_le. intros x Hx. simpl in Hx. lia.
    + apply Z.leb_gt in Hab. constructor; [by apply IH|].
      rewrite insert_by_perm. constructor; [unfold key_le; lia|done].
Qed.

Lemma sort_by_sorted l : StronglySorted (key_le key) (sort_by key l).
Proof.
  induction l as [|a l IH]; simpl; [constructor|by apply insert_by_sorted].
Qed.

(** Stability: elements that a predicate groups under one key keep their
    order. *)
Lemma insert_by_filter (P : A -> Prop) `{!forall x, Decision (P x)} a l :
  (forall x y, P x -> P y -> key x = key y) ->
  filter P (insert_by key a l) = filter P (a :: l).
Proof.
  intros HP. induction l as [|b l IH]; simpl; [done|].
  destruct (key a <=? key b) eqn:Hab; [done|].
  apply Z.leb_gt in Hab.
  rewrite (filter_cons P b), IH, !(filter_cons P a), (filter_cons P b).
  destruct (decide (P b)) as [Hb|Hb], (decide (P a)) as [Ha|Ha]; try done.
  specialize (HP _ _ Ha Hb). lia.
Qed.

Lemma sort_by_filter (P : A -> Prop) `{!forall x, Decision (P x)} l :
  (forall x y, P x -> P y -> key x = key y) ->
  filter P (sort_by key l) = filter P l.
Proof.
  intros HP. induction l as [|a l IH]; simpl; [done|].
  rewrite insert_by_filter by done.
  by rewrite !(filter_cons P a), IH.
Qed.

(** A list has one stable rearrangement only: two sorted lists with the
    same elements in the same order under every key are equal. *)
Lemma stable_sort_unique l1 l2 :
  StronglySorted (key_le key) l1 ->
  StronglySorted (key_le key) l2 ->
  (forall k, filter (fun a => key a = k) l1 = filter (fun a => key a = k) l2) ->
  l1 = l2.
Proof.
  revert l2. induction l1 as [|a l1 IH]; intros l2 Hs1 Hs2 Hf.
  - destruct l2 as [|b l2]; [done|].
    specialize (Hf (key b)). rewrite filter_nil, filter_cons_True in Hf by done.
    discriminate.
  - destruct l2 as [|b l2].
    { specialize (Hf (key a)). rewrite filter_nil, filter_cons_True in Hf by done.
      discriminate. }
    apply StronglySorted_inv in Hs1 as [Hs1 Ha].
    apply StronglySorted_inv in Hs2 as [Hs2 Hb].
    rewrite Forall_forall in Ha, Hb.
    assert (Hab : key a = key b).
    { assert (key a <= key b).
      { assert (Hin : b ∈ filter (fun x => key x = key b) (a :: l1)).
        { rewrite Hf. apply list_elem_of_filter. split; [done|by left]. }
        apply list_elem_of_filter in Hin as [_ Hin].
        apply elem_of_cons in Hin as [->|Hin]; [lia|by apply Ha]. }
      assert (key b <= key a).
      { assert (Hin : a ∈ filter (fun x => key x = key a) (b :: l2)).
        { rewrite <- Hf. apply list_elem_of_filter. split; [done|by left]. }
        apply list_elem_of_filter in Hin as [_ Hin].
        apply elem_of_cons in Hin as [->|Hin]; [lia|by apply Hb]. }
      lia. }
    assert (Heq : a = b).
    { specialize (Hf (key a)).
      rewrite filter_cons_True in Hf by done.
      rewrite filter_cons_True in Hf by done.
      congruence. }
    subst b. f_equal. apply IH; [done|done|].
    intros k. specialize (Hf k).
    rewrite !(filter_cons _ a) in Hf.
    destruct (decide (key a = k)); congruence.
Qed.

End SortFacts.

(** *** Dates *)

Lemma sub_hours_instant d h c :
  sub_hours d h = Return c -> instant c = instant d - h * us_per_hour.
Proof.
  unfold sub_hours. destruct (in_range _); [|discriminate].
  intros [= <-]. unfold instant. simpl. lia.
Qed.

Lemma datetime_new_utcoffset y m d h mi s tz dt :
  datetime_new y m d h mi s tz = Return dt -> utcoffset dt = tz.
Proof.
  unfold datetime_new.
  repeat (match goal with |- context [if ?b then _ else _] => destruct b end;
          try discriminate).
  by intros [= <-].
Qed.

Lemma parse_entry_date_published entry parsed d :
  entry_published_parsed entry = Some parsed ->
  utc_of_struct_time parsed = Return d ->
  parse_entry_date entry = Return (Some d).
Proof.
  unfold parse_entry_date, utc_of_struct_time. intros -> Hd. simpl. by rewrite Hd.
Qed.

Lemma parse_entry_date_updated entry parsed d :
  no_timestamp (entry_published_parsed entry) ->
  entry_updated_parsed entry = Some parsed ->
  utc_of_struct_time parsed = Return d ->
  parse_entry_date entry = Return (Some d).
Proof.
  unfold parse_entry_date, utc_of_struct_time.
  intros [->|(p & -> & Hp)] -> Hd; simpl.
  - by rewrite Hd.
  - unfold utc_of_struct_time in Hp. by rewrite Hp, Hd.
Qed.

Lemma parse_entry_date_unknown entry :
  no_timestamp (entry_published_parsed entry) ->
  no_timestamp (entry_updated_parsed entry) ->
  parse_entry_date entry = Return None.
Proof.
  unfold parse_entry_date, no_timestamp, utc_of_struct_time.
  intros [->|(p & -> & Hp)] [->|(q & -> & Hq)]; simpl;
    by rewrite ?Hp, ?Hq.
Qed.

(** A known timestamp is the UTC reading of one of the two attributes. *)
Lemma parse_entry_date_known entry d :
  parse_entry_date entry = Return (Some d) ->
  utcoffset d = utc /\
  exists parsed,
    (entry_published_parsed entry = Some parsed \/
     entry_updated_parsed entry = Some parsed) /\
    utc_of_struct_time parsed = Return d.
Proof.
  unfold parse_entry_date, utc_of_struct_time. simpl.
  destruct (entry_published_parsed entry) as [p|] eqn:Hp.
  - destruct (datetime_new _ _ _ _ _ _ _) as [dp|[|]] eqn:Hdp.
    + intros [= <-]. split; [by eapply datetime_new_utcoffset|]. eauto.
    + destruct (entry_updated_parsed entry) as [q|] eqn:Hq; [|discriminate].
      destruct (datetime_new (tm_year q) _ _ _ _ _ _) as [dq|[|]] eqn:Hdq;
        try discriminate.
      intros [= <-]. split; [by eapply datetime_new_utcoffset|]. eauto.
    + discriminate.
  - destruct (entry_updated_parsed entry) as [q|] eqn:Hq; [|discriminate].
    destruct (datetime_new (tm_year q) _ _ _ _ _ _) as [dq|[|]] eqn:Hdq;
      try discriminate.
    intros [= <-]. split; [by eapply datetime_new_utcoffset|]. eauto.
Qed.

(** *** The verdicts of the entry filter *)

Lemma filter_entry_SkipUrl cutoff_time keywords exclude_keywords name feed_config
    seen entry :
  entry_url entry = [] \/ entry_url entry ∈ seen ->
  filter_entry cutoff_time keywords exclude_keywords name feed_config seen entry
    = Return SkipUrl.
Proof.
  unfold filter_entry. intros [->|Hin]; [done|].
  rewrite (bool_decide_eq_true_2 _ Hin). by rewrite orb_true_r.
Qed.

(** Past the URL test, the body is decided by the date and the keywords. *)
Lemma filter_entry_fresh cutoff_time keywords exclude_keywords name feed_config
    seen entry :
  entry_url entry <> [] -> entry_url entry ∉ seen ->
  filter_entry cutoff_time keywords exclude_keywords name feed_config seen entry
  = let! pub_date := reraise FromDatetime (parse_entry_date entry) in
    if too_old pub_date cutoff_time then Return SkipOld
    else if matches_exclude_keywords (combined_text entry) exclude_keywords
    then Return SkipExcluded
    else if negb (matches_keywords (combined_text entry) keywords)
    then Return SkipNoKeyword
    else
      let! published :=
        match pub_date with
        | Some d =>
          let! local := reraise FromDatetime (astimezone d JST) in
          Return (strftime local published_format)
        | None => Return unknown_date
        end in
      Return (Accept {|
        title := clean_text (default [] (entry_title entry));
        url := entry_url entry;
        source := name;
        category := default (u "other") (feed_category feed_config);
        language := default (u "en") (feed_language feed_config);
        published := published;
        summary := take 200 (clean_text (default [] (entry_summary entry)))
      |}).
Proof.
  intros Hne Hfresh. unfold filter_entry.
  destruct (entry_url entry) as [|c r] eqn:Hurl; [done|]. simpl nonempty.
  rewrite (bool_decide_eq_false_2 _ Hfresh). reflexivity.
Qed.

Lemma filter_entry_SkipOld cutoff_time keywords exclude_keywords name feed_config
    seen entry :
  filter_entry cutoff_time keywords exclude_keywords name feed_config seen entry
    = Return SkipOld <->
  entry_url entry <> [] /\ (entry_url entry ∉ seen) /\
  exists d, parse_entry_date entry = Return (Some d) /\
            instant d < instant cutoff_time.
Proof.
  destruct (decide (entry_url entry = [])) as [Hnil|Hne].
  { rewrite filter_entry_SkipUrl by auto. split; [discriminate|tauto]. }
  destruct (decide (entry_url entry ∈ seen)) as [Hin|Hfresh].
  { rewrite filter_entry_SkipUrl by auto. split; [discriminate|tauto]. }
  rewrite filter_entry_fresh by done.
  destruct (parse_entry_date entry) as [[d|]|e]; simpl.
  - unfold lt. destruct (Z.ltb_spec (instant d) (instant cutoff_time)).
    + split; [|done]. intros _. eauto 6.
    + split.
      * repeat (match goal with |- context [if ?b then _ else _] => destruct b end;
                try discriminate).
        destruct (reraise _ _); simpl; discriminate.
      * intros (_ & _ & d' & [= <-] & ?). lia.
  - split.
    + repeat (match goal with |- context [if ?b then _ else _] => destruct b end;
              try discriminate).
    + intros (_ & _ & d' & [=] & _).
  - split; [discriminate|]. intros (_ & _ & d' & [=] & _).
Qed.

Lemma filter_entry_excluded cutoff_time keywords exclude_keywords name feed_config
    seen entry v :
  matches_exclude_keywords (combined_text entry) exclude_keywords = true ->
  filter_entry cutoff_time keywords exclude_keywords name feed_config seen entry
    = Return v ->
  v = SkipUrl \/ v = SkipOld \/ v = SkipExcluded.
Proof.
  intros Hex.
  destruct (decide (entry_url entry = [])) as [Hnil|Hne].
  { rewrite filter_entry_SkipUrl by auto. intros [= <-]. auto. }
  destruct (decide (entry_url entry ∈ seen)) as [Hin|Hfresh].
  { rewrite filter_entry_SkipUrl by auto. intros [= <-]. auto. }
  rewrite filter_entry_fresh by done. rewrite Hex.
  destruct (parse_entry_date entry) as [pub|e]; simpl; [|discriminate].
  destruct (too_old pub cutoff_time); intros [= <-]; auto.
Qed.

(** *** The whole run *)

Lemma collect_articles_inv config target_date completed arts errs :
  collect_articles config target_date completed = Return (arts, errs) ->
  exists cutoff_time st,
    sub_hours target_date (default 48 (cfg_fetch_hours config)) = Return cutoff_time /\
    process_futures cutoff_time (default [] (cfg_keywords config))
                    (default [] (cfg_exclude_keywords config))
                    completed initial_state = Return st /\
    gather_articles config target_date completed = Return st /\
    arts = sort_by sort_key (articles st) /\
    errs = errors st.
Proof.
  unfold collect_articles. intros H. bind_inv H. injection H as <- <-.
  pose proof Ha as Hg. unfold gather_articles in Ha. bind_inv Ha.
  apply reraise_Return_inv in Ha0. eauto 10.
Qed.

Lemma collect_articles_from_run config target_date completed arts errs :
  collect_articles config target_date completed = Return (arts, errs) ->
  exists cutoff_time,
    sub_hours target_date (default 48 (cfg_fetch_hours config)) = Return cutoff_time /\
    Forall (from_run cutoff_time (default [] (cfg_keywords config))
                     (default [] (cfg_exclude_keywords config)) completed) arts.
Proof.
  intros (c & st & Hc & Hloop & _ & -> & _)%collect_articles_inv.
  exists c. split; [done|].
  destruct (process_futures_appends _ _ _ _ _ _ Hloop) as (new & Hnew & Hfrom).
  simpl in Hnew. rewrite Hnew.
  apply Forall_forall. intros a Ha. rewrite sort_by_perm in Ha.
  by eapply Forall_forall in Hfrom.
Qed.

Lemma dict_get_notin {V} (d : list (str * V)) key dflt :
  key ∉ map fst d -> dict_get d key dflt = dflt.
Proof.
  induction d as [|[k v] d IH]; simpl; [done|].
  intros Hnotin. apply not_elem_of_cons in Hnotin as [Hne Hnotin].
  rewrite bool_decide_eq_false_2 by congruence. auto.
Qed.

(** The ranks of the table, read off [sort_key]. *)
Lemma sort_key_category a c :
  category a = c -> sort_key a = dict_get category_order c 99.
Proof. by intros <-. Qed.

Lemma sort_key_known_le a :
  category a ∈ known_categories -> 0 <= sort_key a <= 6.
Proof.
  intros H. unfold known_categories, category_order in H. cbn [map fst] in H.
  repeat (apply elem_of_cons in H as [H|H];
          [rewrite (sort_key_category _ _ H); vm_compute; split; intros [=]|]).
  by apply elem_of_nil in H.
Qed.

Lemma sorted_after {A} (key : A -> Z) pre a post :
  StronglySorted (key_le key) (pre ++ a :: post) ->
  Forall (fun b => key a <= key b) post.
Proof.
  intros H. apply StronglySorted_app_1_r in H.
  by apply StronglySorted_inv in H as [_ H].
Qed.

(** *** Claims on the collector *)

(** C1. An entry whose link is empty or already in the seen-URL set is
    skipped, the URL of an accepted article is added to the set and nothing
    else changes it, and so the articles a run returns have pairwise
    different [url] fields. *)
Theorem C1_url_unique :
  (forall cutoff_time keywords exclude_keywords name feed_config seen entry,
      entry_url entry = [] \/ entry_url entry ∈ seen ->
      filter_entry cutoff_time keywords exclude_keywords name feed_config seen entry
        = Return SkipUrl) /\
  (forall st v,
      match v with
      | Accept a => seen_urls (apply_verdict st v) = {[ url a ]} ∪ seen_urls st
      | _ => apply_verdict st v = st
      end) /\
  (forall config target_date completed arts errs,
      collect_articles config target_date completed = Return (arts, errs) ->
      NoDup (map url arts)).
Proof.
  split; [|split].
  - intros. by apply filter_entry_SkipUrl.
  - intros st []; reflexivity.
  - intros config target_date completed arts errs
      (c & st & _ & Hloop & _ & -> & _)%collect_articles_inv.
    rewrite sort_by_perm.
    eapply process_futures_urls_inv in Hloop as [Hnd _]; [done|].
    apply urls_inv_initial.
Qed.

(** C2. With an empty include-keyword list the keyword match is false for
    every text, no entry is accepted, and the run returns no article. *)
Theorem C2_empty_keywords_nothing_passes :
  (forall text, matches_keywords text [] = false) /\
  (forall cutoff_time exclude_keywords name feed_config seen entry a,
      filter_entry cutoff_time [] exclude_keywords name feed_config seen entry
        <> Return (Accept a)) /\
  (forall config target_date completed arts errs,
      default [] (cfg_keywords config) = [] ->
      collect_articles config target_date completed = Return (arts, errs) ->
      arts = []).
Proof.
  split; [|split].
  - reflexivity.
  - intros c ex name fc seen entry a H.
    apply filter_entry_Accept in H. by destruct H.
  - intros config target_date completed arts errs Hkw H.
    destruct (collect_articles_from_run _ _ _ _ _ H) as (c & _ & Hfrom).
    rewrite Hkw in Hfrom.
    destruct arts as [|a arts]; [done|].
    apply Forall_cons in Hfrom
      as [(fc & po & nm & ents & err & e & sn & _ & _ & _ & _ & _ & Hacc) _].
    by destruct Hacc.
Qed.

(** C3. The recency check drops an entry exactly when its timestamp is known
    and strictly earlier than [cutoff_time], which is the target date minus
    the fetch window; the timestamp is read from [published_parsed], else
    from [updated_parsed], as UTC; an entry without a readable timestamp is
    never dropped by this check, and no article of a run is older than the
    cutoff. *)
Theorem C3_recency_check :
  (forall cutoff_time keywords exclude_keywords name feed_config seen entry,
      filter_entry cutoff_time keywords exclude_keywords name feed_config seen entry
        = Return SkipOld <->
      entry_url entry <> [] /\ (entry_url entry ∉ seen) /\
      exists d, parse_entry_date entry = Return (Some d) /\
                instant d < instant cutoff_time) /\
  (forall cutoff_time keywords exclude_keywords name feed_config seen entry,
      parse_entry_date entry = Return None ->
      filter_entry cutoff_time keywords exclude_keywords name feed_config seen entry
        <> Return SkipOld) /\
  (forall entry,
      (forall parsed d,
          entry_published_parsed entry = Some parsed ->
          utc_of_struct_time parsed = Return d ->
          parse_entry_date entry = Return (Some d)) /\
      (forall parsed d,
          no_timestamp (entry_published_parsed entry) ->
          entry_updated_parsed entry = Some parsed ->
          utc_of_struct_time parsed = Return d ->
          parse_entry_date entry = Return (Some d)) /\
      (no_timestamp (entry_published_parsed entry) ->
       no_timestamp (entry_updated_parsed entry) ->
       parse_entry_date entry = Return None) /\
      (forall d, parse_entry_date entry = Return (Some d) -> utcoffset d = utc)) /\
  (forall config target_date completed arts errs,
      collect_articles config target_date completed = Return (arts, errs) ->
      exists cutoff_time,
        sub_hours target_date (default 48 (cfg_fetch_hours config)) = Return cutoff_time /\
        instant cutoff_time
          = instant target_date - default 48 (cfg_fetch_hours config) * us_per_hour /\
        Forall (fun a => exists feed_config parse_outcome name ents err entry pub_date,
                    (feed_config, parse_outcome) ∈ completed /\
                    feed_name feed_config = Some name /\
                    fetch_single_feed feed_config parse_outcome
                      = Return (name, ents, err) /\
                    entry ∈ ents /\ url a = entry_url entry /\
                    parse_entry_date entry = Return pub_date /\
                    match pub_date with
                    | Some d => instant cutoff_time <= instant d
                    | None => True
                    end) arts).
Proof.
  split; [|split; [|split]].
  - intros. apply filter_entry_SkipOld.
  - intros c kws ex name fc seen entry Hnone H.
    apply filter_entry_SkipOld in H as (_ & _ & d & Hd & _). congruence.
  - intros entry. split; [|split; [|split]].
    + intros. by eapply parse_entry_date_published.
    + intros. by eapply parse_entry_date_updated.
    + apply parse_entry_date_unknown.
    + intros d Hd. by apply parse_entry_date_known in Hd as [? _].
  - intros config target_date completed arts errs H.
    destruct (collect_articles_from_run _ _ _ _ _ H) as (c & Hc & Hfrom).
    exists c. split; [done|]. split; [by apply sub_hours_instant|].
    eapply Forall_impl; [exact Hfrom|].
    intros a (fc & po & nm & ents & err & e & sn & Hin & Hnm & Hfetch & _ & He & Hacc).
    destruct Hacc as [Hurl _ _ (pub & Hpub & Hold) _ _ _ _ _ _ _].
    exists fc, po, nm, ents, err, e, pub. repeat (split; [done|]).
    destruct pub as [d|]; [|done]. simpl in Hold. unfold lt in Hold.
    apply Z.ltb_ge in Hold. done.
Qed.


(** C5. The returned list is the stable sort, by category rank, of the
    articles gathered from all feeds: the key of an article is 0 for
    official, 1 for domestic, 2 for international, 3 for tech, 4 for reddit,
    5 for industry, 6 for other and 99 for every other category; the result
    is a rearrangement of the gathered list, in rank order, in which the
    articles of one rank, and so of one category, keep their order. *)
Theorem C5_stable_category_sort :
  known_categories
    = [u "official"; u "domestic"; u "international"; u "tech"; u "reddit";
       u "industry"; u "other"] /\
  map (fun c => dict_get category_order c 99) known_categories
    = [0; 1; 2; 3; 4; 5; 6] /\
  (forall a,
      (category a = u "official" -> sort_key a = 0) /\
      (category a = u "domestic" -> sort_key a = 1) /\
      (category a = u "international" -> sort_key a = 2) /\
      (category a = u "tech" -> sort_key a = 3) /\
      (category a = u "reddit" -> sort_key a = 4) /\
      (category a = u "industry" -> sort_key a = 5) /\
      (category a = u "other" -> sort_key a = 6) /\
      (category a ∉ known_categories -> sort_key a = 99)) /\
  (forall config target_date completed arts errs,
      collect_articles config target_date completed = Return (arts, errs) ->
      exists st,
        gather_articles config target_date completed = Return st /\
        arts ≡ₚ articles st /\
        StronglySorted (key_le sort_key) arts /\
        (forall k, filter (fun a => sort_key a = k) arts
                   = filter (fun a => sort_key a = k) (articles st)) /\
        (forall c, filter (fun a => category a = c) arts
                   = filter (fun a => category a = c) (articles st))).
Proof.
  split; [reflexivity|]. split; [reflexivity|]. split.
  - intros a.
    repeat (split; [intros H; rewrite (sort_key_category _ _ H);
                    vm_compute; reflexivity|]).
    intros Ha. by apply dict_get_notin.
  - intros config target_date completed arts errs
      (c & st & _ & _ & Hg & -> & _)%collect_articles_inv.
    exists st. split; [done|]. split; [apply sort_by_perm|].
    split; [apply sort_by_sorted|]. split.
    + intros k. apply sort_by_filter. congruence.
    + intros cat. apply sort_by_filter. unfold sort_key. congruence.
Qed.

(** C6, as amended. A category outside the fixed table is kept as it is: it
    sorts with rank 99, after every category of the table ("other"
    included), whose articles have a key of at most 6 and so come before it
    in the list a run returns, and its section heading shows the category
    string itself. *)
Theorem C6_unrecognized_category_kept (a : Article) :
  category a ∉ known_categories ->
  sort_key a = 99 /\
  Forall (fun c => dict_get category_order c 99 < sort_key a) known_categories /\
  category_label (category a) = category a /\
  (forall current_category rest,
      current_category <> category a ->
      render_articles current_category (a :: rest)
      = [u "## " ++ category a; []] ++ article_lines a
        ++ render_articles (category a) rest) /\
  (forall b, category b ∈ known_categories ->
             sort_key b <= 6 /\ sort_key b < sort_key a) /\
  (forall b, category b = u "other" -> sort_key b = 6) /\
  (forall config target_date completed arts errs pre post,
      collect_articles config target_date completed = Return (arts, errs) ->
      arts = pre ++ a :: post ->
      Forall (fun b => category b ∉ known_categories) post).
Proof.
  intros Ha.
  assert (Hkey : sort_key a = 99) by by apply dict_get_notin.
  assert (Hlabel : category_label (category a) = category a)
    by by apply dict_get_notin.
  split; [done|]. split; [|split; [done|split; [|split; [|split]]]].
  - rewrite Hkey. unfold known_categories.
    repeat (constructor; [by vm_compute|]). constructor.
  - intros cur rest Hne. simpl.
    rewrite bool_decide_eq_true_2 by congruence. by rewrite Hlabel.
  - intros b Hb. apply sort_key_known_le in Hb. lia.
  - intros b Hb. rewrite (sort_key_category _ _ Hb). vm_compute. reflexivity.
  - intros config target_date completed arts errs pre post
      (c & st & _ & _ & _ & Harts & _)%collect_articles_inv Hsplit.
    pose proof (sort_by_sorted sort_key (articles st)) as Hsorted.
    rewrite <- Harts, Hsplit in Hsorted. apply sorted_after in Hsorted.
    eapply Forall_impl; [exact Hsorted|].
    intros b Hle Hb. cbv beta in Hle. apply sort_key_known_le in Hb. lia.
Qed.

(** C7, as amended. For a feed item that has a name and a url,
    [fetch_single_feed] never raises. When [feedparser.parse] returns, the
    result is an error descriptor exactly when the feed is flagged malformed
    and has no entry, and that descriptor is the parse-error message; a feed
    with entries is returned with them and without error, malformed or not.
    When [feedparser.parse] raises, the result is the message of the
    exception. A feed that ends in a descriptor leaves the articles and the
    seen URLs as they are, and the loop goes on with the remaining feeds.
    For a feed item without name or url the subscript before the [try]
    raises [KeyError], and that exception ends the loop over the feeds. *)
Theorem C7_fetch_errors (feed_config : FeedConfig)
    (parse_outcome : pyresult py_exception FeedParserDict) :
  (forall name url,
      feed_name feed_config = Some name ->
      feed_url feed_config = Some url ->
      (exists r, fetch_single_feed feed_config parse_outcome = Return r) /\
      (forall parsed,
          parse_outcome = Return parsed ->
          ((exists msg, fetch_single_feed feed_config parse_outcome
                        = Return (name, [], Some msg)) <->
           bozo parsed = true /\ entries parsed = []) /\
          (bozo parsed = true -> entries parsed = [] ->
           fetch_single_feed feed_config parse_outcome
           = Return (name, [], Some (u "Parse error: " ++ bozo_exception parsed))) /\
          (entries parsed <> [] ->
           fetch_single_feed feed_config parse_outcome
           = Return (name, entries parsed, None))) /\
      (forall e,
          parse_outcome = Raise e ->
          fetch_single_feed feed_config parse_outcome
          = Return (name, [], Some (str_e e))) /\
      (forall cutoff_time keywords exclude_keywords st msg rest,
          fetch_single_feed feed_config parse_outcome
            = Return (name, [], Some msg) ->
          exists st',
            process_future cutoff_time keywords exclude_keywords st
                           (feed_config, parse_outcome) = Return st' /\
            articles st' = articles st /\
            seen_urls st' = seen_urls st /\
            errors st' = errors st
              ++ (if nonempty msg
                  then [{| name := name; error := msg |}] else []) /\
            process_futures cutoff_time keywords exclude_keywords
                            ((feed_config, parse_outcome) :: rest) st
            = process_futures cutoff_time keywords exclude_keywords rest st')) /\
  (feed_name feed_config = None ->
   fetch_single_feed feed_config parse_outcome = Raise (KeyError (u "name"))) /\
  (feed_name feed_config <> None -> feed_url feed_config = None ->
   fetch_single_feed feed_config parse_outcome = Raise (KeyError (u "url"))) /\
  (forall e cutoff_time keywords exclude_keywords st rest,
      fetch_single_feed feed_config parse_outcome = Raise e ->
      process_futures cutoff_time keywords exclude_keywords
                      ((feed_config, parse_outcome) :: rest) st
      = Raise (FromFetch e)).
Proof.
  split; [|split; [|split]].
  - intros name url Hname Hurl.
    split; [by eapply fetch_single_feed_total|]. split; [|split].
    + intros parsed ->. rewrite (fetch_single_feed_parsed _ _ _ _ Hname Hurl).
      destruct (bozo parsed), (entries parsed) as [|e0 es]; simpl.
      * split; [split; [done|eauto]|]. split; [done|]. intros Hne. by destruct Hne.
      * split; [split; [intros (msg & [=])|intros [_ [=]]]|]. split; [discriminate|done].
      * split; [split; [intros (msg & [=])|intros [[=] _]]|]. split; [discriminate|].
        intros Hne. by destruct Hne.
      * split; [split; [intros (msg & [=])|intros [[=] _]]|]. split; [discriminate|done].
    + intros e ->. by apply fetch_single_feed_raised with url.
    + intros c kws ex st msg rest Hfetch.
      assert (Hstep : exists st',
        process_future c kws ex st (feed_config, parse_outcome) = Return st' /\
        articles st' = articles st /\ seen_urls st' = seen_urls st /\
        errors st' = errors st
          ++ (if nonempty msg
              then [{| name := name; error := msg |}] else [])).
      { unfold process_future. cbn [fst snd]. rewrite Hfetch.
        unfold reraise, bind, truthy. destruct (nonempty msg).
        - eexists. split; [done|]. done.
        - exists st. cbn [process_entries]. by rewrite app_nil_r. }
      destruct Hstep as (st' & Hst' & H1 & H2 & H3).
      exists st'. repeat (split; [done|]). cbn [process_futures]. by rewrite Hst'.
  - apply fetch_single_feed_no_name.
  - intros Hname Hurl. destruct (feed_name feed_config) as [name|] eqn:Hn; [|done].
    by eapply fetch_single_feed_no_url.
  - intros e c kws ex st rest Hfetch. cbn [process_futures].
    unfold process_future. cbn [fst snd]. by rewrite Hfetch.
Qed.

(** C10. The articles a feed contributes carry the feed's name as source,
    the category ["other"] when the feed has no [category] key and the
    language ["en"] when it has no [language] key; so does every article of
    a run with respect to the feed it comes from. *)
Theorem C10_feed_defaults :
  (forall cutoff_time keywords exclude_keywords name feed_config ents st st',
      process_entries cutoff_time keywords exclude_keywords name feed_config ents st
        = Return st' ->
      exists new,
        articles st' = articles st ++ new /\
        (feed_category feed_config = None ->
         Forall (fun a => category a = u "other") new) /\
        (feed_language feed_config = None ->
         Forall (fun a => language a = u "en") new)) /\
  (forall config target_date completed arts errs,
      collect_articles config target_date completed = Return (arts, errs) ->
      Forall (fun a => exists feed_config,
                  feed_config ∈ map fst completed /\
                  feed_name feed_config = Some (source a) /\
                  (feed_category feed_config = None -> category a = u "other") /\
                  (feed_language feed_config = None -> language a = u "en")) arts).
Proof.
  split.
  - intros c kws ex name fc ents st st' H.
    destruct (process_entries_appends _ _ _ _ _ _ _ _ H) as (new & Hnew & _ & Hacc).
    exists new. split; [done|].
    split; intros Hnone; (eapply Forall_impl; [exact Hacc|]);
      intros a (e & sn & _ & []); rewrite Hnone in *; done.
  - intros config target_date completed arts errs H.
    destruct (collect_articles_from_run _ _ _ _ _ H) as (c & _ & Hfrom).
    eapply Forall_impl; [exact Hfrom|].
    intros a (fc & po & nm & ents & err & e & sn & Hin & Hnm & _ & _ & _ & []).
    exists fc. split.
    { apply list_elem_of_fmap. by exists (fc, po). }
    split; [congruence|]. split; intros Hnone; rewrite Hnone in *; done.
Qed.

(** An undated entry with a fresh URL that passes both keyword tests is
    appended. *)
Lemma process_entry_accept_undated cutoff_time keywords exclude_keywords name
    feed_config st entry :
  entry_url entry <> [] -> entry_url entry ∉ seen_urls st ->
  parse_entry_date entry = Return None ->
  matches_exclude_keywords (combined_text entry) exclude_keywords = false ->
  matches_keywords (combined_text entry) keywords = true ->
  process_entry cutoff_time keywords exclude_keywords name feed_config st entry
  = Return (apply_verdict st (Accept {|
      title := clean_text (default [] (entry_title entry));
      url := entry_url entry;
      source := name;
      category := default (u "other") (feed_category feed_config);
      language := default (u "en") (feed_language feed_config);
      published := unknown_date;
      summary := take 200 (clean_text (default [] (entry_summary entry)))
    |})).
Proof.
  intros Hne Hfresh Hdate Hex Hkw. unfold process_entry.
  rewrite filter_entry_fresh by done.
  rewrite Hdate. simpl. rewrite Hex, Hkw. reflexivity.
Qed.

(** C9. Only an accepted entry changes the seen-URL set: a step either
    leaves it (and the articles) as it is or adds the URL of the article it
    appends; an entry dropped by the recency or a keyword test leaves the
    whole state as it is. So a URL met first on an entry that is dropped can
    be accepted later: in the run over [twice_completed] the first entry is
    dropped as too old and the second one, with the same URL, is returned. *)
Theorem C9_seen_only_on_accept :
  (forall cutoff_time keywords exclude_keywords name feed_config st entry st',
      process_entry cutoff_time keywords exclude_keywords name feed_config st entry
        = Return st' ->
      (seen_urls st' = seen_urls st /\ articles st' = articles st) \/
      (exists a,
          url a = entry_url entry /\
          articles st' = articles st ++ [a] /\
          seen_urls st' = {[ entry_url entry ]} ∪ seen_urls st)) /\
  (forall cutoff_time keywords exclude_keywords name feed_config st entry v,
      filter_entry cutoff_time keywords exclude_keywords name feed_config
                   (seen_urls st) entry = Return v ->
      v = SkipOld \/ v = SkipExcluded \/ v = SkipNoKeyword ->
      process_entry cutoff_time keywords exclude_keywords name feed_config st entry
        = Return st) /\
  (as_completed twice_config twice_completed /\
   entry_url twice_old = entry_url twice_again /\
   exists cutoff_time a,
     sub_hours twice_target 48 = Return cutoff_time /\
     filter_entry cutoff_time [combined_text twice_again] [] (u "feed") twice_feed
                  ∅ twice_old = Return SkipOld /\
     collect_articles twice_config twice_target twice_completed = Return ([a], []) /\
     url a = entry_url twice_again).
Proof.
  split; [|split].
  - intros c kws ex name fc st entry st' H.
    destruct (process_entry_cases _ _ _ _ _ _ _ _ H)
      as [[-> _]|(a & [Hurl] & Harts & _ & Hs)]; [by left|].
    right. exists a. by rewrite <- Hurl.
  - intros c kws ex name fc st entry v Hv Hskip. unfold process_entry.
    rewrite Hv. by destruct Hskip as [->|[->| ->]].
  - split; [exact (Permutation_refl [twice_feed])|].
    split; [vm_compute; reflexivity|].
    assert (Hcut : exists c, sub_hours twice_target 48 = Return c /\
                             instant c = instant twice_target - 48 * us_per_hour).
    { destruct (sub_hours twice_target 48) as [c|e] eqn:Hc; [|by vm_compute in Hc].
      exists c. split; [done|]. by apply sub_hours_instant. }
    destruct Hcut as (c & Hc & Hinst).
    assert (Hold : filter_entry c [combined_text twice_again] [] (u "feed")
                     twice_feed ∅ twice_old = Return SkipOld).
    { apply filter_entry_SkipOld. split; [by vm_compute|].
      split; [apply not_elem_of_empty|].
      eexists. split; [vm_compute; reflexivity|].
      rewrite Hinst. by vm_compute. }
    eexists c, _. split; [done|]. split; [done|].
    split; cycle 1.
    { shelve. }
    unfold collect_articles, gather_articles. simpl default.
    rewrite Hc. simpl. unfold process_future. simpl.
    unfold process_entry at 1. simpl seen_urls. rewrite Hold. simpl.
    rewrite process_entry_accept_undated.
    + reflexivity.
    + by vm_compute.
    + apply not_elem_of_empty.
    + reflexivity.
    + reflexivity.
    + apply matches_keywords_self.
    Unshelve. vm_compute. reflexivity.
Qed.

(** *** The digest *)

Lemma one_line_app s t : one_line (s ++ t) <-> one_line s /\ one_line t.
Proof. apply not_elem_of_app. Qed.

Lemma one_line_take n s : one_line s -> one_line (take n s).
Proof. unfold one_line. intros Hs Hin. apply Hs. by eapply subseteq_take. Qed.

Lemma one_line_literals :
  Forall one_line
    ([u "# AI News — "; u "年"; u "月"; u "日（"; u "）"; u "> 自動収集: ";
      u " 件 / エラー: "; u " 件"; u "> 収集時刻: ";
      u "本日の該当記事はありませんでした。"; u "---"; u "## ⚠ 取得エラー";
      u "- **"; u "**: "; u "## "; u "- [ ] ["; u " | "; u "]("; u ")";
      u "      "; []]
     ++ WEEKDAY_JA ++ map snd labels).
Proof. compute_done. Qed.

Ltac literal :=
  eapply (proj1 (Forall_forall _ _) one_line_literals); compute_done.

Lemma one_line_weekday i : one_line (nth i WEEKDAY_JA []).
Proof.
  do 8 (destruct i as [|i]; [literal|]). simpl. literal.
Qed.

Lemma one_line_category_label c : one_line c -> one_line (category_label c).
Proof.
  intros Hc. unfold category_label.
  assert (Hlabels : Forall one_line (map snd labels)).
  { apply Forall_forall. intros s Hs.
    eapply (proj1 (Forall_forall _ _) one_line_literals).
    apply elem_of_app. right. apply elem_of_app. by right. }
  induction labels as [|[k v] d IH]; simpl; [done|].
  apply Forall_cons in Hlabels as [Hv Hd].
  destruct (bool_decide (k = c)); auto.
Qed.

Lemma one_line_checklist_line a : readable a -> one_line (checklist_line a).
Proof.
  intros []. unfold checklist_line.
  rewrite !one_line_app. repeat split; try done; literal.
Qed.

Lemma one_line_article_lines a : readable a -> Forall one_line (article_lines a).
Proof.
  intros Ha. unfold article_lines.
  apply Forall_app. split.
  { constructor; [by apply one_line_checklist_line|constructor]. }
  apply Forall_app. split; [|by repeat constructor; literal].
  destruct (nonempty (summary a)); [|constructor].
  constructor; [|constructor]. apply one_line_app. split; [literal|].
  apply one_line_take. by destruct Ha.
Qed.

Lemma render_articles_cons current_category a rest :
  render_articles current_category (a :: rest)
  = (if bool_decide (category a <> current_category)
     then [u "## " ++ category_label (category a); []] else [])
    ++ article_lines a ++ render_articles (category a) rest.
Proof. reflexivity. Qed.

Lemma one_line_render_articles current_category arts :
  Forall readable arts -> Forall one_line (render_articles current_category arts).
Proof.
  revert current_category.
  induction arts as [|a arts IH]; intros cur Hall; [constructor|].
  rewrite render_articles_cons.
  apply Forall_cons in Hall as [Ha Hall].
  apply Forall_app. split.
  { destruct (bool_decide _); [|constructor].
    constructor; [|by repeat constructor; literal].
    apply one_line_app. split; [literal|].
    apply one_line_category_label. by destruct Ha. }
  apply Forall_app. split; [by apply one_line_article_lines|by apply IH].
Qed.

Lemma one_line_generate_lines arts errs target_date now :
  Forall readable arts -> Forall readable_error errs ->
  one_line (strftime now (u "%Y-%m-%d %H:%M JST")) ->
  Forall one_line (generate_lines arts errs target_date now).
Proof.
  intros Harts Herrs Hnow. unfold generate_lines.
  apply Forall_app. split; [|apply Forall_app; split].
  - repeat constructor; rewrite ?one_line_app; repeat split;
      try apply str_of_int_no_newline; try apply one_line_weekday;
      try done; literal.
  - destruct arts as [|a arts].
    + repeat constructor; literal.
    + by apply one_line_render_articles.
  - destruct errs as [|e errs]; [constructor|].
    apply Forall_app. split; [repeat constructor; literal|].
    apply Forall_app. split; [|repeat constructor; literal].
    apply Forall_fmap. eapply Forall_impl; [exact Herrs|].
    intros err [Hn He]. unfold error_line, compose.
    rewrite !one_line_app. repeat split; try done; literal.
Qed.

(** A ["]("] astride the end of the source would need a [(] where the
    separator has its []]. *)
Lemma contains_source_sep s :
  contains (u "](") (s ++ removelast (u "](")) = contains (u "](") s.
Proof.
  replace (u "](") with [93%N; 40%N] by (vm_compute; reflexivity).
  change (removelast [93%N; 40%N]) with [93%N].
  induction s as [|c s IH]; [reflexivity|].
  change ((c :: s) ++ [93%N]) with (c :: (s ++ [93%N])).
  rewrite !contains_cons, IH. f_equal.
  destruct s as [|d s]; simpl; [|reflexivity].
  by destruct (char_eqb 93%N c).
Qed.

Lemma parse_checklist_line_other line :
  startswith (u "- [ ] [") line = false -> parse_checklist_line line = None.
Proof. intros H. unfold parse_checklist_line. by rewrite strip_prefix_None. Qed.

Lemma parse_checklist_line_checklist a :
  readable a -> parse_checklist_line (checklist_line a) = Some (triple a).
Proof.
  intros Ha. unfold parse_checklist_line, checklist_line.
  rewrite strip_prefix_app.
  replace (title a ++ u " | " ++ source a ++ u "](" ++ url a ++ u ")")
    with ((title a ++ u " | " ++ source a ++ u "](" ++ url a) ++ [41%N]).
  2: { rewrite <- !app_assoc. do 4 f_equal. }
  rewrite strip_last_snoc.
  rewrite (partition_at_app (u " | ")).
  2: { replace (removelast (u " | ")) with (u " |") by (vm_compute; reflexivity).
       by destruct Ha. }
  rewrite (partition_at_app (u "](")).
  2: { rewrite contains_source_sep. by destruct Ha. }
  reflexivity.
Qed.

Lemma parse_heading_line x : parse_checklist_line (u "## " ++ x) = None.
Proof. apply parse_checklist_line_other. vm_compute. reflexivity. Qed.

Lemma parse_summary_line x : parse_checklist_line (u "      " ++ x) = None.
Proof. apply parse_checklist_line_other. vm_compute. reflexivity. Qed.

Lemma parse_error_line err : parse_checklist_line (error_line err) = None.
Proof.
  apply parse_checklist_line_other. unfold error_line.
  generalize (name err ++ u "**: " ++ error err). intros x.
  vm_compute. reflexivity.
Qed.

Lemma parse_empty_line : parse_checklist_line [] = None.
Proof. vm_compute. reflexivity. Qed.

Lemma omap_article_lines a :
  readable a -> omap parse_checklist_line (article_lines a) = [triple a].
Proof.
  intros Ha. unfold article_lines.
  rewrite !omap_app. simpl omap at 1. cbn [omap list_omap].
  rewrite parse_checklist_line_checklist by done.
  destruct (nonempty (summary a)); cbn [omap list_omap];
    rewrite ?parse_summary_line, parse_empty_line; reflexivity.
Qed.

Lemma omap_render_articles current_category arts :
  Forall readable arts ->
  omap parse_checklist_line (render_articles current_category arts)
  = map triple arts.
Proof.
  revert current_category.
  induction arts as [|a arts IH]; intros cur Hall; [reflexivity|].
  apply Forall_cons in Hall as [Ha Hall].
  rewrite render_articles_cons, !omap_app, omap_article_lines, IH by done.
  destruct (bool_decide _); [|reflexivity].
  cbn [omap list_omap]. by rewrite parse_heading_line, parse_empty_line.
Qed.

Lemma omap_generate_lines arts errs target_date now :
  Forall readable arts ->
  omap parse_checklist_line (generate_lines arts errs target_date now)
  = map triple arts.
Proof.
  intros Harts. unfold generate_lines.
  rewrite !omap_app.
  assert (Hbody : omap parse_checklist_line
            match arts with
            | [] => [u "本日の該当記事はありませんでした。"; []]
            | _ :: _ => render_articles [] arts
            end = map triple arts).
  { destruct arts as [|a arts]; [|by apply omap_render_articles].
    vm_compute. reflexivity. }
  assert (Herrs : omap parse_checklist_line
            match errs with
            | [] => []
            | _ :: _ =>
              [u "---"; []; u "## ⚠ 取得エラー"; []] ++ map error_line errs ++ [[]]
            end = []).
  { destruct errs as [|e errs]; [reflexivity|].
    rewrite !omap_app.
    assert (Hlines : omap parse_checklist_line (map error_line (e :: errs)) = []).
    { induction (e :: errs) as [|x l IHl]; [reflexivity|].
      cbn [map omap list_omap list_fmap fmap]. by rewrite parse_error_line. }
    rewrite Hlines. vm_compute. reflexivity. }
  rewrite Hbody, Herrs, app_nil_r.
  match goal with |- omap _ ?header ++ _ = _ =>
    assert (Hheader : omap parse_checklist_line header = []) end.
  { cbn [omap list_omap].
    repeat match goal with
    | |- context [parse_checklist_line (u ?lit ++ ?x)] =>
      rewrite (parse_checklist_line_other (u lit ++ x))
        by (generalize x; intros ?; vm_compute; reflexivity)
    end.
    by rewrite parse_empty_line. }
  by rewrite Hheader.
Qed.

(** Every article has its lines in the digest. *)
Lemma render_articles_contains current_category arts a :
  a ∈ arts ->
  exists before after,
    render_articles current_category arts = before ++ article_lines a ++ after.
Proof.
  revert current_category.
  induction arts as [|b arts IH]; intros cur Hin; [by apply elem_of_nil in Hin|].
  rewrite render_articles_cons.
  apply elem_of_cons in Hin as [->|Hin].
  - exists (if bool_decide (category b <> cur)
            then [u "## " ++ category_label (category b); []] else []),
           (render_articles (category b) arts).
    reflexivity.
  - destruct (IH (category b) Hin) as (before & after & Heq).
    exists ((if bool_decide (category b <> cur)
             then [u "## " ++ category_label (category b); []] else [])
            ++ article_lines b ++ before), after.
    rewrite Heq. by rewrite <- !app_assoc.
Qed.

Lemma app_sandwich {A} (h b m a f : list A) :
  exists before after, h ++ (b ++ m ++ a) ++ f = before ++ m ++ after.
Proof. exists (h ++ b), (a ++ f). by rewrite <- !app_assoc. Qed.

Lemma generate_lines_nonempty arts errs target_date now :
  generate_lines arts errs target_date now <> [].
Proof.
  intros Hnil. apply (f_equal length) in Hnil.
  unfold generate_lines in Hnil. rewrite length_app in Hnil.
  simpl length in Hnil. lia.
Qed.

(** C8, as amended. The digest is the lines of [generate_lines] joined by
    line breaks; for every article they hold, in a row, the checklist line
    [- [ ] [title | source](url)] built from its title, source and url, the
    indented first 150 characters of its summary when the summary is not
    empty, and an empty line. Reading the checklist lines of the digest back
    gives the (title, source, url) triples of the articles, in order, when
    every printed field is on one line and title and source leave the
    separators unambiguous ([readable]). *)
Theorem C8_digest_checklist (arts : list Article) (errs : list FetchError)
    (target_date now : datetime) :
  (forall a,
      checklist_line a
      = u "- [ ] [" ++ title a ++ u " | " ++ source a ++ u "](" ++ url a ++ u ")" /\
      article_lines a
      = [checklist_line a]
        ++ (if nonempty (summary a)
            then [u "      " ++ take 150 (summary a)] else [])
        ++ [[]]) /\
  generate_markdown arts errs target_date now
  = join [NEWLINE] (generate_lines arts errs target_date now) /\
  (forall a,
      a ∈ arts ->
      exists before after,
        generate_lines arts errs target_date now
        = before ++ article_lines a ++ after) /\
  (Forall readable arts ->
   Forall readable_error errs ->
   one_line (strftime now (u "%Y-%m-%d %H:%M JST")) ->
   parse_digest (generate_markdown arts errs target_date now) = map triple arts).
Proof.
  split; [by intros a|]. split; [reflexivity|]. split.
  - intros a Hin. unfold generate_lines.
    destruct arts as [|a0 arts']; [by apply elem_of_nil in Hin|].
    destruct (render_articles_contains [] (a0 :: arts') a Hin)
      as (before & after & Heq).
    rewrite Heq. apply app_sandwich.
  - intros Harts Herrs Hnow. unfold parse_digest, generate_markdown.
    rewrite split_char_join.
    + by apply omap_generate_lines.
    + apply generate_lines_nonempty.
    + by apply one_line_generate_lines.
Qed.

(** ** More of the script *)

(** *** Substrings and the keyword tests *)

Lemma startswith_spec p s : startswith p s = true <-> exists t, s = p ++ t.
Proof.
  revert s. induction p as [|a p IH]; intros s; simpl.
  - split; [eauto|done].
  - destruct s as [|b s].
    + split; [done|]. by intros (t & [=]).
    + rewrite andb_true_iff, IH. unfold char_eqb. rewrite N.eqb_eq. split.
      * intros [-> (t & ->)]. eauto.
      * intros (t & [= -> ->]). eauto.
Qed.

Lemma contains_unfold sub s :
  contains sub s =
  startswith sub s || match s with [] => false | _ :: s' => contains sub s' end.
Proof. by destruct s. Qed.

(** [sub in s] holds exactly when [s] is [pre + sub + post]. *)
Lemma contains_spec sub s :
  contains sub s = true <-> exists pre post, s = pre ++ sub ++ post.
Proof.
  split.
  - induction s as [|x s IH]; rewrite contains_unfold, orb_true_iff.
    + intros [(t & Ht)%startswith_spec|[=]]. exists [], t. done.
    + intros [(t & Ht)%startswith_spec|(pre & post & ->)%IH].
      * exists [], t. done.
      * exists (x :: pre), post. done.
  - intros (pre & post & ->). induction pre as [|x pre IH].
    + rewrite contains_unfold, orb_true_iff. left.
      apply startswith_spec. eauto.
    + change ((x :: pre) ++ sub ++ post) with (x :: (pre ++ sub ++ post)).
      rewrite contains_cons, IH. apply orb_true_r.
Qed.

(** X1. A text matches a keyword list exactly when the lower-cased form of
    one of the keywords occurs as a substring of the lower-cased text. *)
Theorem matches_keywords_substring text keywords :
  matches_keywords text keywords = true <->
  exists kw pre post,
    kw ∈ keywords /\ lower text = pre ++ lower kw ++ post.
Proof.
  rewrite matches_keywords_spec. split.
  - intros (kw & Hin & (pre & post & Heq)%contains_spec). eauto 6.
  - intros (kw & pre & post & Hin & Heq). exists kw. split; [done|].
    apply contains_spec. eauto.
Qed.

(** X2. An empty string among the keywords matches every text: as an
    include keyword it lets every text pass, as an exclude keyword it drops
    every entry. *)
Theorem empty_keyword_matches_all text keywords :
  lower [] = [] ->
  [] ∈ keywords ->
  matches_keywords text keywords = true /\
  matches_exclude_keywords text keywords = true /\
  (forall cutoff_time include name feed_config seen entry a,
      filter_entry cutoff_time include keywords name feed_config seen entry
        <> Return (Accept a)).
Proof.
  intros Hlower Hin.
  assert (Hall : forall t, matches_keywords t keywords = true).
  { intros t. apply matches_keywords_spec. exists []. split; [done|].
    rewrite Hlower. by destruct (lower t). }
  split; [done|]. split; [by rewrite matches_exclude_keywords_eq|].
  intros c inc name fc seen entry a H.
  apply filter_entry_Accept in H as [].
  rewrite matches_exclude_keywords_eq, Hall in *. discriminate.
Qed.

(** X3. The exclude test is the include test: the early return of
    [matches_exclude_keywords] for an empty list changes no result, and both
    tests only grow with the list. *)
Theorem exclude_test_is_include_test text kws more :
  matches_exclude_keywords text kws = matches_keywords text kws /\
  matches_keywords text (kws ++ more)
  = matches_keywords text kws || matches_keywords text more /\
  matches_exclude_keywords text (kws ++ more)
  = matches_exclude_keywords text kws || matches_exclude_keywords text more.
Proof.
  split; [apply matches_exclude_keywords_eq|].
  assert (Happ : matches_keywords text (kws ++ more)
                 = matches_keywords text kws || matches_keywords text more).
  { unfold matches_keywords. apply existsb_app. }
  split; [done|]. by rewrite !matches_exclude_keywords_eq.
Qed.

(** *** clean_text *)

Lemma elem_of_rev {A} (x : A) l : x ∈ rev l <-> x ∈ l.
Proof. rewrite !list_elem_of_In. symmetry. apply in_rev. Qed.

Lemma no_tag_has_tag s : no_tag s -> ~ has_tag s.
Proof.
  intros Hs (pre & body & post & -> & Hne & Hbody).
  induction pre as [|c pre IH]; simpl in Hs.
  - destruct Hs as [Hlt _]. destruct (Hlt eq_refl) as [(r & Hr)|Hgt].
    + destruct body as [|b body]; [done|]. injection Hr as -> _.
      apply Hbody. by left.
    + apply Hgt. apply elem_of_app. right. by left.
  - apply IH. by destruct Hs.
Qed.

Lemma no_tag_without_gt s : GT ∉ s -> no_tag s.
Proof.
  induction s as [|c s IH]; intros Hgt; simpl; [done|].
  apply not_elem_of_cons in Hgt as [_ Hgt]. split; [by right|by apply IH].
Qed.

Lemma no_tag_app_without_gt p s : GT ∉ p -> no_tag s -> GT ∉ s -> no_tag (p ++ s).
Proof.
  intros Hp Hs Hgt. apply no_tag_without_gt. by apply not_elem_of_app.
Qed.

(** The scanner, with its pending characters. *)
Lemma strip_tags_from_no_tag pending text :
  (forall p, pending = Some p -> GT ∉ p) ->
  no_tag (strip_tags_from pending text).
Proof.
  revert pending. induction text as [|c text IH]; intros pending Hp.
  - destruct pending as [p|]; simpl; [|done].
    apply no_tag_without_gt. rewrite elem_of_rev. by apply Hp.
  - destruct pending as [p|]; simpl.
    + unfold char_eqb. destruct (N.eqb_spec c GT) as [->|Hne].
      * destruct p as [|x [|y p]].
        -- by apply IH.
        -- simpl. split; [|split; [done|by apply IH]].
           intros _. left. eauto.
        -- by apply IH.
      * apply IH. intros q [= <-]. apply not_elem_of_cons. split; [done|].
        by apply Hp.
    + unfold char_eqb. destruct (N.eqb_spec c LT) as [->|Hne].
      * apply IH. intros q [= <-]. apply not_elem_of_cons. split; [done|].
        apply not_elem_of_nil.
      * simpl. split; [done|]. by apply IH.
Qed.

Lemma strip_tags_no_tag text : no_tag (strip_tags text).
Proof. apply strip_tags_from_no_tag. done. Qed.

(** What [collapse_spaces_from] outputs: spaces, and the characters of the
    text that are not whitespace. *)
Lemma collapse_spaces_elem in_run text x :
  x ∈ collapse_spaces_from in_run text ->
  x = SPACE \/ (x ∈ text /\ isspace x = false).
Proof.
  revert in_run. induction text as [|c text IH]; intros in_run; simpl.
  - by intros ?%elem_of_nil.
  - destruct (isspace c) eqn:Hc.
    + destruct in_run.
      * intros [->|[? ?]]%IH; [by left|]. right. split; [by right|done].
      * intros [->|[->|[? ?]]%IH]%elem_of_cons; [by left..|].
        right. split; [by right|done].
    + intros [->|[->|[? ?]]%IH]%elem_of_cons.
      * right. split; [by left|done].
      * by left.
      * right. split; [by right|done].
Qed.

Lemma collapse_spaces_no_gt in_run text :
  GT ∉ text -> GT ∉ collapse_spaces_from in_run text.
Proof.
  intros Hgt [Heq|[Hin _]]%collapse_spaces_elem; [done|by apply Hgt].
Qed.

Lemma collapse_spaces_no_tag in_run text :
  no_tag text -> no_tag (collapse_spaces_from in_run text).
Proof.
  revert in_run. induction text as [|c text IH]; intros in_run Ht; [done|].
  destruct Ht as [Hlt Ht]. simpl.
  destruct (isspace c) eqn:Hc.
  - destruct in_run; [by apply IH|].
    simpl. split; [done|by apply IH].
  - simpl. split; [|by apply IH].
    intros ->. destruct (Hlt eq_refl) as [(r & ->)|Hgt].
    + destruct (isspace GT) eqn:Hgt.
      * right. intros [Heq|[_ Hns]]%collapse_spaces_elem; [done|congruence].
      * left. simpl. rewrite Hgt. eauto.
    + right. by apply collapse_spaces_no_gt.
Qed.

Lemma no_tag_suffix pre s : no_tag (pre ++ s) -> no_tag s.
Proof. induction pre as [|c pre IH]; simpl; [done|]. intros [_ H]. auto. Qed.

Lemma no_tag_prefix s post : no_tag (s ++ post) -> no_tag s.
Proof.
  induction s as [|c s IH]; simpl; [done|].
  intros [Hlt Hs]. split; [|auto].
  intros Hc. destruct (Hlt Hc) as [(r & Hr)|Hgt].
  - destruct s as [|b s]; [right; apply not_elem_of_nil|].
    injection Hr as -> _. left. eauto.
  - right. by apply not_elem_of_app in Hgt as [? _].
Qed.

Lemma single_spaced_suffix pre s : single_spaced (pre ++ s) -> single_spaced s.
Proof. induction pre as [|c pre IH]; simpl; [done|]. intros [_ H]. auto. Qed.

Lemma single_spaced_prefix s post : single_spaced (s ++ post) -> single_spaced s.
Proof.
  induction s as [|a s IH]; simpl; [done|].
  intros [Hpair Hs]. split; [|auto].
  destruct s as [|b s]; [done|]. exact Hpair.
Qed.

Lemma single_spaced_spec s :
  single_spaced s <->
  forall pre a b post,
    s = pre ++ a :: b :: post -> isspace a = true -> isspace b = false.
Proof.
  split.
  - intros Hs pre a b post ->. apply single_spaced_suffix in Hs.
    simpl in Hs. by destruct Hs as [Hs _].
  - induction s as [|a s IH]; intros H; simpl; [done|]. split.
    + destruct s as [|b s]; [done|]. apply (H [] a b s). done.
    + apply IH. intros pre x y post ->. apply (H (a :: pre) x y post). done.
Qed.

(** [lstrip] drops a whitespace prefix and stops at the first character
    that is not whitespace. *)
Lemma lstrip_spec text :
  exists pre,
    text = pre ++ lstrip text /\
    forall c rest, lstrip text = c :: rest -> isspace c = false.
Proof.
  induction text as [|c text (pre & Heq & Hhead)]; simpl.
  - exists []. done.
  - destruct (isspace c) eqn:Hc.
    + exists (c :: pre). split; [simpl; congruence|done].
    + exists []. split; [done|]. by intros ? ? [= <- _].
Qed.

Lemma lstrip_fixed text :
  (forall c rest, text = c :: rest -> isspace c = false) -> lstrip text = text.
Proof.
  destruct text as [|c text]; [done|]. intros H. simpl.
  by rewrite (H c text eq_refl).
Qed.

(** [strip] cuts a piece out of the text, and the piece is trimmed. *)
Lemma strip_infix text : exists pre post, text = pre ++ strip text ++ post.
Proof.
  unfold strip.
  destruct (lstrip_spec text) as (pre & Heq & _).
  destruct (lstrip_spec (rev (lstrip text))) as (pre2 & Heq2 & _).
  exists pre, (rev pre2). rewrite <- rev_app_distr, <- Heq2, rev_involutive.
  exact Heq.
Qed.

Lemma strip_trimmed text : trimmed (strip text).
Proof.
  unfold strip.
  destruct (lstrip_spec text) as (pre & Heq & Hhead).
  destruct (lstrip_spec (rev (lstrip text))) as (pre2 & Heq2 & Hhead2).
  split.
  - intros c rest Hrev.
    apply (f_equal (@rev char)) in Hrev. rewrite rev_involutive in Hrev.
    simpl in Hrev. rewrite Hrev in Heq2.
    apply (f_equal (@rev char)) in Heq2. rewrite rev_involutive in Heq2.
    rewrite !rev_app_distr, rev_involutive in Heq2. simpl in Heq2.
    by apply (Hhead c (rest ++ rev pre2)).
  - intros c init Hrev.
    apply (f_equal (@rev char)) in Hrev. rewrite rev_involutive in Hrev.
    rewrite rev_app_distr in Hrev. simpl in Hrev.
    by apply (Hhead2 c (rev init)).
Qed.

Lemma strip_fixed text : trimmed text -> strip text = text.
Proof.
  intros [Hhead Hlast]. unfold strip.
  rewrite (lstrip_fixed text Hhead), lstrip_fixed; [apply rev_involutive|].
  intros c rest Hrev. apply (Hlast c (rev rest)).
  apply (f_equal (@rev char)) in Hrev. by rewrite rev_involutive in Hrev.
Qed.

Lemma collapse_spaces_single_spaced in_run text :
  single_spaced (collapse_spaces_from in_run text) /\
  (in_run = true ->
   forall c rest, collapse_spaces_from in_run text = c :: rest -> isspace c = false).
Proof.
  revert in_run. induction text as [|c text IH]; intros in_run; simpl.
  - split; [done|]. by intros _ ? ? [=].
  - destruct (isspace c) eqn:Hc.
    + destruct in_run.
      * apply IH.
      * split; [|done]. destruct (IH true) as [Hs Hhead]. simpl.
        split; [|done].
        destruct (collapse_spaces_from true text) as [|b out] eqn:Hout; [done|].
        intros _. by apply (Hhead eq_refl b out).
    + split.
      * simpl. split; [|apply IH].
        destruct (collapse_spaces_from false text); [done|congruence].
      * by intros _ ? ? [= <- _].
Qed.

(** Collapsing changes nothing in a text whose whitespace is single
    spaces. *)
Lemma collapse_spaces_fixed text :
  Forall (fun c => isspace c = true -> c = SPACE) text ->
  single_spaced text ->
  collapse_spaces_from false text = text /\
  ((forall c rest, text = c :: rest -> isspace c = false) ->
   collapse_spaces_from true text = text).
Proof.
  induction text as [|c text IH]; intros Hall Hs; [done|].
  apply Forall_cons in Hall as [Hc Hall]. destruct Hs as [Hpair Hs].
  destruct (IH Hall Hs) as [IHf IHt]. simpl.
  destruct (isspace c) eqn:Hsp.
  - split.
    + rewrite (Hc eq_refl). f_equal. apply IHt.
      intros b rest ->. by apply Hpair.
    + intros Hhead. by rewrite (Hhead c text eq_refl) in Hsp.
  - split; [by rewrite IHf|]. intros _. by rewrite IHf.
Qed.

Lemma strip_tags_from_open p text :
  GT ∉ text -> strip_tags_from (Some p) text = rev p ++ text.
Proof.
  revert p. induction text as [|c text IH]; intros p Hgt; simpl.
  - by rewrite app_nil_r.
  - apply not_elem_of_cons in Hgt as [Hne Hgt].
    unfold char_eqb. destruct (N.eqb_spec c GT) as [->|_]; [done|].
    rewrite IH by done. simpl. by rewrite <- app_assoc.
Qed.

(** A text without tags is left as it is. *)
Lemma strip_tags_fixed text : no_tag text -> strip_tags text = text.
Proof.
  unfold strip_tags. induction text as [|c text IH]; [done|].
  intros [Hlt Ht]. simpl.
  unfold char_eqb. destruct (N.eqb_spec c LT) as [->|_].
  - destruct (Hlt eq_refl) as [(r & ->)|Hgt].
    + simpl. do 2 f_equal.
      specialize (IH Ht). simpl in IH. by injection IH.
    + by rewrite strip_tags_from_open.
  - by rewrite IH.
Qed.

(** The three properties of a cleaned text. *)
Lemma clean_text_normal text :
  no_tag (clean_text text) /\
  Forall (fun c => isspace c = true -> c = SPACE) (clean_text text) /\
  single_spaced (clean_text text) /\
  trimmed (clean_text text).
Proof.
  unfold clean_text.
  destruct (strip_infix (collapse_spaces_from false (strip_tags text)))
    as (pre & post & Heq).
  assert (Htag : no_tag (collapse_spaces_from false (strip_tags text)))
    by apply collapse_spaces_no_tag, strip_tags_no_tag.
  assert (Hsp : single_spaced (collapse_spaces_from false (strip_tags text)))
    by apply collapse_spaces_single_spaced.
  assert (Hall : Forall (fun c => isspace c = true -> c = SPACE)
                        (collapse_spaces_from false (strip_tags text))).
  { apply Forall_forall. intros x [->|[_ Hx]]%collapse_spaces_elem; [done|].
    congruence. }
  rewrite Heq in Htag, Hsp, Hall.
  split; [by eapply no_tag_prefix, no_tag_suffix|].
  split; [by apply Forall_app in Hall as [_ [? _]%Forall_app]|].
  split; [by eapply single_spaced_prefix, single_spaced_suffix|].
  apply strip_trimmed.
Qed.

(** X4. A cleaned text holds no tag: nowhere a [<] followed by one or more
    characters other than [>] and a [>]. *)
Theorem clean_text_no_tag text : ~ has_tag (clean_text text).
Proof. apply no_tag_has_tag, clean_text_normal. Qed.

(** X5. In a cleaned text whitespace only occurs as single spaces between
    other characters: a whitespace character is a space, no two follow each
    other, and the text neither starts nor ends with one. *)
Theorem clean_text_whitespace text :
  (forall c, c ∈ clean_text text -> isspace c = true -> c = SPACE) /\
  (forall pre a b post,
      clean_text text = pre ++ a :: b :: post ->
      isspace a = true -> isspace b = false) /\
  (forall c rest, clean_text text = c :: rest -> isspace c = false) /\
  (forall c init, clean_text text = init ++ [c] -> isspace c = false).
Proof.
  destruct (clean_text_normal text) as (_ & Hall & Hs & Hhead & Hlast).
  split; [exact (proj1 (Forall_forall _ _) Hall)|].
  split; [by apply single_spaced_spec|]. done.
Qed.

(** A cleaned text is a fixed point of the cleaning. *)
Lemma clean_text_fixed text :
  clean_text (clean_text text) = clean_text text.
Proof.
  destruct (clean_text_normal text) as (Htag & Hall & Hs & Htrim).
  unfold clean_text at 1.
  rewrite strip_tags_fixed by done.
  rewrite (proj1 (collapse_spaces_fixed _ Hall Hs)).
  by apply strip_fixed.
Qed.

(** X6. Cleaning is idempotent: a cleaned text is left as it is. *)
Theorem clean_text_idempotent text :
  clean_text (clean_text text) = clean_text text.
Proof. apply clean_text_fixed. Qed.

(** *** parse_entry_date and fetch_single_feed *)

Lemma utc_of_struct_time_cases parsed :
  (fits_c_int parsed = false /\ utc_of_struct_time parsed = Raise OverflowError) \/
  (fits_c_int parsed = true /\
   (utc_of_struct_time parsed = Raise ValueError \/
    exists d, utc_of_struct_time parsed = Return d)).
Proof.
  unfold utc_of_struct_time, datetime_new.
  fold (fits_c_int parsed). destruct (fits_c_int parsed); simpl; [right|by left].
  split; [done|].
  repeat (match goal with |- context [if ?b then _ else _] => destruct b end;
          try (by left)).
  right. eauto.
Qed.

Lemma parse_entry_date_attrs_cons parsed rest :
  parse_entry_date_attrs (Some parsed :: rest) =
  match utc_of_struct_time parsed with
  | Return d => Return (Some d)
  | Raise ValueError => parse_entry_date_attrs rest
  | Raise OverflowError => Raise OverflowError
  end.
Proof. reflexivity. Qed.

Lemma parse_entry_date_attrs_raise attrs e :
  parse_entry_date_attrs attrs = Raise e ->
  e = OverflowError /\
  exists parsed, Some parsed ∈ attrs /\ fits_c_int parsed = false.
Proof.
  induction attrs as [|[p|] attrs IH]; [done| |].
  - rewrite parse_entry_date_attrs_cons.
    destruct (utc_of_struct_time_cases p) as [[Hfit ->]|[_ [->|[d ->]]]].
    + intros [= <-]. split; [done|]. exists p. split; [by left|done].
    + intros (-> & q & Hq & Hfit)%IH. split; [done|]. exists q.
      split; [by right|done].
    + done.
  - simpl. intros (-> & q & Hq & Hfit)%IH. split; [done|]. exists q.
    split; [by right|done].
Qed.

Lemma parse_entry_date_attrs_return attrs :
  (forall parsed, Some parsed ∈ attrs -> fits_c_int parsed = true) ->
  exists pub_date, parse_entry_date_attrs attrs = Return pub_date.
Proof.
  induction attrs as [|[p|] attrs IH]; intros Hfit.
  - by exists None.
  - rewrite parse_entry_date_attrs_cons.
    destruct (utc_of_struct_time_cases p) as [[Hp _]|[_ [->|[d ->]]]].
    + rewrite Hfit in Hp by by left. done.
    + apply IH. intros q Hq. apply Hfit. by right.
    + eauto.
  - simpl. apply IH. intros q Hq. apply Hfit. by right.
Qed.

(** X7. [parse_entry_date] only lets an [OverflowError] through, and only
    for an attribute with a field outside the C [int] range: a date that
    [datetime] rejects with [ValueError] makes it try the next attribute;
    with all fields of both attributes in the C [int] range it returns, and
    with such a field in [published_parsed] it raises. *)
Theorem parse_entry_date_raises entry :
  (forall e, parse_entry_date entry = Raise e ->
     e = OverflowError /\
     exists parsed,
       (entry_published_parsed entry = Some parsed \/
        entry_updated_parsed entry = Some parsed) /\
       fits_c_int parsed = false) /\
  ((forall parsed, entry_published_parsed entry = Some parsed ->
                   fits_c_int parsed = true) ->
   (forall parsed, entry_updated_parsed entry = Some parsed ->
                   fits_c_int parsed = true) ->
   exists pub_date, parse_entry_date entry = Return pub_date) /\
  (forall parsed, entry_published_parsed entry = Some parsed ->
                  fits_c_int parsed = false ->
                  parse_entry_date entry = Raise OverflowError).
Proof.
  unfold parse_entry_date. split; [|split].
  - intros e (-> & q & Hq & Hfit)%parse_entry_date_attrs_raise.
    split; [done|]. exists q. split; [|done].
    apply elem_of_cons in Hq as [Hq|Hq]; [by left|].
    apply list_elem_of_singleton in Hq. by right.
  - intros Hpub Hupd. apply parse_entry_date_attrs_return.
    intros q Hq. apply elem_of_cons in Hq as [Hq|Hq]; [by apply Hpub|].
    apply list_elem_of_singleton in Hq. by apply Hupd.
  - intros q -> Hfit. rewrite parse_entry_date_attrs_cons.
    by destruct (utc_of_struct_time_cases q) as [[_ ->]|[? _]]; [|congruence].
Qed.

(** X8. When [fetch_single_feed] returns, the feed item has a name and a
    url; what it returns carries that name, and never both entries and an
    error: with an error the entry list is empty, and entries that are
    returned are those of the parsed feed. *)
Theorem fetch_single_feed_shape feed_config parse_outcome name ents err :
  fetch_single_feed feed_config parse_outcome = Return (name, ents, err) ->
  (feed_name feed_config = Some name /\
   exists url, feed_url feed_config = Some url) /\
  (err <> None -> ents = []) /\
  (ents <> [] ->
   err = None /\
   exists parsed, parse_outcome = Return parsed /\ entries parsed = ents).
Proof.
  intros H. pose proof (fetch_single_feed_name _ _ _ _ _ H) as Hname.
  destruct (fetch_single_feed_keys _ _ _ H) as (name' & url & _ & Hurl).
  split; [eauto|].
  destruct parse_outcome as [parsed|e].
  - rewrite (fetch_single_feed_parsed _ _ _ _ Hname Hurl) in H.
    destruct (bozo parsed && _); injection H as <- <-.
    + split; [done|]. done.
    + split; [done|]. eauto.
  - rewrite (fetch_single_feed_raised _ _ _ _ Hname Hurl) in H.
    injection H as <- <-. done.
Qed.

(** *** The errors and the URLs of a run *)

Section MoreRunFacts.
Variable cutoff_time : datetime.
Variables keywords exclude_keywords : list str.

Local Abbreviation entry_step := (process_entry cutoff_time keywords exclude_keywords).
Local Abbreviation entries_loop := (process_entries cutoff_time keywords exclude_keywords).
Local Abbreviation future_step := (process_future cutoff_time keywords exclude_keywords).
Local Abbreviation futures_loop := (process_futures cutoff_time keywords exclude_keywords).
Local Abbreviation qualifies_here := (qualifies cutoff_time keywords exclude_keywords).

Lemma process_future_errors st future st' :
  future_step st future = Return st' ->
  errors st' = errors st ++ option_list (reported_error future).
Proof.
  destruct future as [fc po]. intros H.
  destruct (process_future_cases _ _ _ _ _ _ _ H)
    as (nm & ents & err & _ & Hfetch & [(Herr & _ & _ & Herrs)|[Herr Hloop]]);
    unfold reported_error; simpl; rewrite Hfetch.
  - destruct err as [msg|]; [|done]. simpl in Herr. by rewrite Herr.
  - destruct (process_entries_appends _ _ _ _ _ _ _ _ Hloop) as (_ & _ & -> & _).
    destruct err as [msg|]; simpl in *; [rewrite Herr|]; by rewrite app_nil_r.
Qed.

Lemma process_futures_errors completed st st' :
  futures_loop completed st = Return st' ->
  errors st' = errors st ++ omap reported_error completed.
Proof.
  revert st. induction completed as [|future rest IH]; intros st H; simpl in H.
  - injection H as <-. by rewrite app_nil_r.
  - bind_inv H. rewrite (IH _ H), (process_future_errors _ _ _ Ha).
    rewrite <- app_assoc. f_equal.
    change (omap reported_error (future :: rest))
      with (match reported_error future with
            | Some e => e :: omap reported_error rest
            | None => omap reported_error rest
            end).
    by destruct (reported_error future).
Qed.

(** A step never forgets a URL, and it marks the URL of a qualifying
    entry, by accepting the entry unless the URL was marked before. *)
Lemma process_entry_seen name feed_config st entry st' :
  entry_step name feed_config st entry = Return st' ->
  seen_urls st ⊆ seen_urls st' /\
  (qualifies_here entry -> entry_url entry ∈ seen_urls st').
Proof.
  intros H.
  destruct (process_entry_cases _ _ _ _ _ _ _ _ H)
    as [[-> (v & Hv & Hnot)]|(a & [Hurl] & _ & _ & Hs)].
  - split; [done|]. intros (Hne & (pub & Hpub & Hold) & Hex & Hkw).
    destruct (decide (entry_url entry ∈ seen_urls st)) as [|Hfresh]; [done|].
    exfalso. rewrite filter_entry_fresh in Hv by done.
    rewrite Hpub in Hv. simpl in Hv. rewrite Hold, Hex, Hkw in Hv. simpl in Hv.
    destruct pub as [d|]; simpl in Hv.
    + destruct (astimezone d JST); simpl in Hv; [|done].
      injection Hv as <-. by eapply Hnot.
    + injection Hv as <-. by eapply Hnot.
  - rewrite Hs, <- Hurl. split; [apply union_subseteq_r|]. intros _.
    apply elem_of_union. left. by apply elem_of_singleton.
Qed.

Lemma process_entries_seen name feed_config ents st st' :
  entries_loop name feed_config ents st = Return st' ->
  seen_urls st ⊆ seen_urls st' /\
  (forall entry, entry ∈ ents -> qualifies_here entry ->
                 entry_url entry ∈ seen_urls st').
Proof.
  revert st. induction ents as [|e ents IH]; intros st H; simpl in H.
  - injection H as <-. split; [done|]. by intros ? ?%elem_of_nil.
  - bind_inv H. destruct (IH _ H) as [Hsub Hall].
    destruct (process_entry_seen _ _ _ _ _ Ha) as [Hsub1 He].
    split; [by etrans|].
    intros entry [->|Hin]%elem_of_cons Hq; [|by apply Hall].
    apply Hsub. by apply He.
Qed.

Lemma process_future_seen st future st' :
  future_step st future = Return st' ->
  seen_urls st ⊆ seen_urls st' /\
  (forall entry, entry ∈ fetched_entries future -> qualifies_here entry ->
                 entry_url entry ∈ seen_urls st').
Proof.
  destruct future as [fc po]. intros H.
  destruct (process_future_cases _ _ _ _ _ _ _ H)
    as (nm & ents & err & _ & Hfetch & [(Herr & _ & -> & _)|[Herr Hloop]]);
    unfold fetched_entries; simpl; rewrite Hfetch, Herr.
  - split; [done|]. by intros ? ?%elem_of_nil.
  - by apply process_entries_seen in Hloop.
Qed.

Lemma process_futures_seen completed st st' :
  futures_loop completed st = Return st' ->
  seen_urls st ⊆ seen_urls st' /\
  (forall future entry,
      future ∈ completed -> entry ∈ fetched_entries future ->
      qualifies_here entry -> entry_url entry ∈ seen_urls st').
Proof.
  revert st. induction completed as [|future rest IH]; intros st H; simpl in H.
  - injection H as <-. split; [done|]. by intros ? ? ?%elem_of_nil.
  - bind_inv H. destruct (IH _ H) as [Hsub Hall].
    destruct (process_future_seen _ _ _ Ha) as [Hsub1 Hf].
    split; [by etrans|].
    intros f entry [->|Hin]%elem_of_cons He Hq; [|by eapply Hall].
    apply Hsub. by apply Hf.
Qed.

End MoreRunFacts.

Lemma accepted_qualifies cutoff_time keywords exclude_keywords name feed_config
    seen entry a :
  accepted cutoff_time keywords exclude_keywords name feed_config seen entry a ->
  qualifies cutoff_time keywords exclude_keywords entry.
Proof. intros []. done. Qed.

Lemma collect_articles_NoDup config target_date completed arts errs :
  collect_articles config target_date completed = Return (arts, errs) ->
  NoDup (map url arts).
Proof.
  intros (c & st & _ & Hloop & _ & -> & _)%collect_articles_inv.
  rewrite sort_by_perm.
  eapply process_futures_urls_inv in Hloop as [Hnd _]; [done|].
  apply urls_inv_initial.
Qed.

(** The errors of a run, read off the completed fetches. *)
Lemma run_errors_reported config target_date completed arts errs :
  collect_articles config target_date completed = Return (arts, errs) ->
  errs = omap reported_error completed /\
  (forall feed_config e,
      str_e e = [] -> reported_error (feed_config, Raise e) = None).
Proof.
  intros (c & st & _ & Hloop & _ & _ & ->)%collect_articles_inv.
  split.
  - by rewrite (process_futures_errors _ _ _ _ _ _ Hloop).
  - intros fc e He. unfold reported_error. cbn [fst snd].
    destruct (fetch_single_feed fc (Raise e)) as [[[nm ents] err]|x] eqn:Hf;
      [|done].
    destruct (fetch_single_feed_keys _ _ _ Hf) as (n & url & Hn & Hu).
    rewrite (fetch_single_feed_raised _ _ _ _ Hn Hu) in Hf.
    injection Hf as <- <- <-. by rewrite He.
Qed.

(** X9. The errors a run returns are those of the fetches that ended in a
    non-empty error message, one each, in completion order; an exception
    whose message is empty is not reported. *)
Theorem collect_articles_errors config target_date completed arts errs :
  collect_articles config target_date completed = Return (arts, errs) ->
  errs = omap reported_error completed /\
  (forall feed_config e,
      str_e e = [] -> reported_error (feed_config, Raise e) = None).
Proof. apply run_errors_reported. Qed.

(** The URLs of a run, read off the completed fetches. *)
Lemma run_urls_qualify config target_date completed arts errs :
  collect_articles config target_date completed = Return (arts, errs) ->
  exists cutoff_time,
    sub_hours target_date (default 48 (cfg_fetch_hours config)) = Return cutoff_time /\
    forall x,
      x ∈ map url arts <->
      exists future entry,
        future ∈ completed /\ entry ∈ fetched_entries future /\
        entry_url entry = x /\
        qualifies cutoff_time (default [] (cfg_keywords config))
                  (default [] (cfg_exclude_keywords config)) entry.
Proof.
  intros H.
  destruct (collect_articles_from_run _ _ _ _ _ H) as (c & Hc & Hfrom).
  exists c. split; [done|].
  apply collect_articles_inv in H as (c' & st & Hc' & Hloop & _ & -> & _).
  assert (c' = c) as -> by congruence.
  intros x. split.
  - intros (a & -> & Ha)%list_elem_of_fmap.
    rewrite Forall_forall in Hfrom.
    destruct (Hfrom a Ha)
      as (fc & po & nm & ents & err & e & sn & Hin & _ & Hfetch & Herr & He & Hacc).
    exists (fc, po), e. split; [done|]. split.
    { unfold fetched_entries. simpl. by rewrite Hfetch, Herr. }
    split; [by destruct Hacc|]. by eapply accepted_qualifies.
  - intros (future & e & Hin & He & <- & Hq).
    destruct (process_futures_seen _ _ _ _ _ _ Hloop) as [_ Hall].
    pose proof (Hall future e Hin He Hq) as Hseen.
    eapply process_futures_urls_inv in Hloop as [_ Hinv]; [|apply urls_inv_initial].
    apply Hinv in Hseen. by rewrite sort_by_perm.
Qed.

(** X10. The URLs of the returned articles are exactly the non-empty URLs
    of the fetched entries that pass the recency and keyword tests: no such
    URL is lost, whichever entry brings it in. *)
Theorem collect_articles_urls config target_date completed arts errs :
  collect_articles config target_date completed = Return (arts, errs) ->
  exists cutoff_time,
    sub_hours target_date (default 48 (cfg_fetch_hours config)) = Return cutoff_time /\
    forall x,
      x ∈ map url arts <->
      exists future entry,
        future ∈ completed /\ entry ∈ fetched_entries future /\
        entry_url entry = x /\
        qualifies cutoff_time (default [] (cfg_keywords config))
                  (default [] (cfg_exclude_keywords config)) entry.
Proof. apply run_urls_qualify. Qed.

(** X11. The completion order of the fetches does not change which URLs and
    which errors a run returns: two runs over the same fetches return the
    same URLs and the same errors, up to order. *)
Theorem collect_articles_order config target_date completed1 completed2
    arts1 errs1 arts2 errs2 :
  completed1 ≡ₚ completed2 ->
  collect_articles config target_date completed1 = Return (arts1, errs1) ->
  collect_articles config target_date completed2 = Return (arts2, errs2) ->
  map url arts1 ≡ₚ map url arts2 /\ errs1 ≡ₚ errs2.
Proof.
  intros Hperm H1 H2. split.
  - apply NoDup_Permutation; [by eapply collect_articles_NoDup..|].
    destruct (run_urls_qualify _ _ _ _ _ H1) as (c1 & Hc1 & Hu1).
    destruct (run_urls_qualify _ _ _ _ _ H2) as (c2 & Hc2 & Hu2).
    assert (c2 = c1) as -> by congruence.
    intros x. rewrite Hu1, Hu2.
    split; intros (future & e & Hin & Hrest); exists future, e;
      (split; [|done]); [by rewrite <- Hperm|by rewrite Hperm].
  - destruct (run_errors_reported _ _ _ _ _ H1) as [-> _].
    destruct (run_errors_reported _ _ _ _ _ H2) as [-> _].
    by rewrite Hperm.
Qed.

(** *** The articles of a run *)

Lemma no_tag_take n s : no_tag s -> no_tag (take n s).
Proof.
  intros Hs. apply (no_tag_prefix _ (drop n s)). by rewrite take_drop.
Qed.

(** X12. Every article a run returns has a non-empty URL, a title that is a
    cleaned text (cleaning it again changes nothing), and a summary of at
    most 200 characters; neither title nor summary holds a tag. *)
Theorem collect_articles_fields config target_date completed arts errs :
  collect_articles config target_date completed = Return (arts, errs) ->
  Forall (fun a =>
            url a <> [] /\
            clean_text (title a) = title a /\
            (length (summary a) <= 200)%nat /\
            ~ has_tag (title a) /\ ~ has_tag (summary a)) arts.
Proof.
  intros H.
  destruct (collect_articles_from_run _ _ _ _ _ H) as (c & _ & Hfrom).
  eapply Forall_impl; [exact Hfrom|].
  intros a (fc & po & nm & ents & err & e & sn & _ & _ & _ & _ & _ & Hacc).
  destruct Hacc as [Hurl Hne _ _ _ _ Htitle Hsummary _ _ _].
  rewrite Hurl, Htitle, Hsummary.
  split; [done|]. split; [apply clean_text_fixed|].
  split; [rewrite length_take; lia|].
  split; apply no_tag_has_tag; [|apply no_tag_take]; apply clean_text_normal.
Qed.

(** X13. With a line break counted as whitespace, as Python counts it, the
    titles and summaries of the returned articles hold no line break. *)
Theorem collect_articles_one_line config target_date completed arts errs :
  isspace NEWLINE = true ->
  collect_articles config target_date completed = Return (arts, errs) ->
  Forall (fun a => one_line (title a) /\ one_line (summary a)) arts.
Proof.
  intros Hnl H.
  assert (Hclean : forall s, one_line (clean_text s)).
  { intros s Hin.
    destruct (clean_text_normal s) as (_ & Hall & _).
    rewrite Forall_forall in Hall. by specialize (Hall _ Hin Hnl). }
  destruct (collect_articles_from_run _ _ _ _ _ H) as (c & _ & Hfrom).
  eapply Forall_impl; [exact Hfrom|].
  intros a (fc & po & nm & ents & err & e & sn & _ & _ & _ & _ & _ & Hacc).
  destruct Hacc as [_ _ _ _ _ _ Htitle Hsummary _ _ _].
  rewrite Htitle, Hsummary. split; [apply Hclean|].
  apply one_line_take, Hclean.
Qed.

(** X14. The digest shows the first 150 characters of the cleaned summary
    of the entry: the cut at 200 characters made when the article is built
    never shows, and the summary line is there exactly when the cleaned
    summary is not empty. *)
Theorem accepted_summary_line cutoff_time keywords exclude_keywords name
    feed_config seen entry a :
  accepted cutoff_time keywords exclude_keywords name feed_config seen entry a ->
  article_lines a
  = [checklist_line a]
    ++ (if nonempty (clean_text (default [] (entry_summary entry)))
        then [u "      "
              ++ take 150 (clean_text (default [] (entry_summary entry)))]
        else [])
    ++ [[]].
Proof.
  intros []. unfold article_lines. rewrite acc_summary0, take_take.
  replace (Nat.min 150 200) with 150%nat by reflexivity.
  by destruct (clean_text (default [] (entry_summary entry))).
Qed.

(** X15. [articles.sort] gives the only list in rank order that keeps the
    articles of every rank in their order, and it leaves a list that is in
    rank order as it is. *)
Theorem articles_sort_unique (arts l : list Article) :
  (StronglySorted (key_le sort_key) l ->
   (forall k, filter (fun a => sort_key a = k) l
              = filter (fun a => sort_key a = k) arts) ->
   l = sort_by sort_key arts) /\
  (StronglySorted (key_le sort_key) arts -> sort_by sort_key arts = arts).
Proof.
  assert (Hrank : forall k,
    filter (fun a => sort_key a = k) (sort_by sort_key arts)
    = filter (fun a => sort_key a = k) arts).
  { intros k. apply sort_by_filter. congruence. }
  split.
  - intros Hl Hf. apply (stable_sort_unique sort_key); [done|apply sort_by_sorted|].
    intros k. by rewrite Hf, Hrank.
  - intros Hs. apply (stable_sort_unique sort_key); [apply sort_by_sorted|done|].
    exact Hrank.
Qed.

(** *** The sections of the digest *)

Lemma dict_get_value {V} (d : list (str * V)) key dflt :
  dict_get d key dflt = dflt \/ (key, dict_get d key dflt) ∈ d.
Proof.
  induction d as [|[k v] d IH]; simpl; [by left|].
  case_bool_decide as Hk.
  - right. subst k. by left.
  - destruct IH as [?|?]; [by left|]. right. by right.
Qed.

Lemma assoc_value_inj {V} (d : list (str * V)) k1 k2 v :
  NoDup (map snd d) -> (k1, v) ∈ d -> (k2, v) ∈ d -> k1 = k2.
Proof.
  induction d as [|[k w] d IH]; simpl; intros Hnd H1 H2.
  - by apply elem_of_nil in H1.
  - apply NoDup_cons in Hnd as [Hw Hnd].
    assert (Hsnd : forall k0, (k0, v) ∈ d -> v ∈ map snd d).
    { intros k0 Hk0. apply list_elem_of_fmap. by exists (k0, v). }
    apply elem_of_cons in H1 as [E1|H1]; apply elem_of_cons in H2 as [E2|H2].
    + congruence.
    + injection E1 as -> ->. exfalso. eauto.
    + injection E2 as -> ->. exfalso. eauto.
    + by apply IH.
Qed.

(** Only the articles of a known category have its rank. *)
Lemma sort_key_known c a :
  c ∈ known_categories ->
  sort_key a = dict_get category_order c 99 -> category a = c.
Proof.
  intros Hc Hkey. unfold sort_key in Hkey.
  assert (Hnd : NoDup (map snd category_order)) by compute_done.
  assert (H99 : (99 : Z) ∉ map snd category_order) by compute_done.
  assert (Hall : Forall (fun c => (c, dict_get category_order c 99) ∈ category_order)
                        known_categories) by compute_done.
  pose proof (proj1 (Forall_forall _ _) Hall c Hc) as Hin. simpl in Hin.
  destruct (dict_get_value category_order (category a) 99) as [H|H].
  - exfalso. apply H99. rewrite <- H, Hkey.
    apply list_elem_of_fmap. by exists (c, dict_get category_order c 99).
  - rewrite Hkey in H. by eapply assoc_value_inj.
Qed.

Lemma section_starts_elem current_category arts x :
  x ∈ section_starts current_category arts ->
  exists a, a ∈ arts /\ category a = x.
Proof.
  revert current_category. induction arts as [|a arts IH]; intros cur; simpl.
  - by intros ?%elem_of_nil.
  - intros [Hin|Hin]%elem_of_app.
    + case_bool_decide; [|by apply elem_of_nil in Hin].
      apply list_elem_of_singleton in Hin as ->. exists a. split; [by left|done].
    + destruct (IH _ Hin) as (b & Hb & <-). exists b. split; [by right|done].
Qed.

Lemma filter_eq_not_elem_of (c : str) l : c ∉ l -> filter (fun x => x = c) l = [].
Proof.
  induction l as [|x l IH]; intros Hc; [done|].
  apply not_elem_of_cons in Hc as [Hne Hc].
  rewrite filter_cons_False by congruence. auto.
Qed.

(** After an article of a known category, in rank order, no section of
    that category starts. *)
Lemma section_starts_same c arts :
  c ∈ known_categories ->
  StronglySorted (key_le sort_key) arts ->
  Forall (fun a => dict_get category_order c 99 <= sort_key a) arts ->
  c ∉ section_starts c arts.
Proof.
  intros Hc. induction arts as [|a arts IH]; intros Hs Hge; simpl.
  - apply not_elem_of_nil.
  - apply StronglySorted_inv in Hs as [Hs Ha].
    apply Forall_cons in Hge as [Hgea Hge].
    apply not_elem_of_app. destruct (decide (category a = c)) as [Heq|Hne].
    + rewrite bool_decide_eq_false_2 by (intros ?; congruence).
      split; [apply not_elem_of_nil|]. rewrite Heq. by apply IH.
    + split.
      * case_bool_decide; [|apply not_elem_of_nil].
        by intros ->%list_elem_of_singleton.
      * intros (b & Hb & Hcat)%section_starts_elem.
        rewrite Forall_forall in Ha. specialize (Ha b Hb). unfold key_le in Ha.
        assert (Hkb : sort_key b = dict_get category_order c 99)
          by (unfold sort_key; by rewrite Hcat).
        apply Hne. apply sort_key_known; [done|]. lia.
Qed.

Lemma section_starts_once c current_category arts :
  c ∈ known_categories ->
  StronglySorted (key_le sort_key) arts ->
  (length (filter (fun x => x = c) (section_starts current_category arts)) <= 1)%nat.
Proof.
  intros Hc. revert current_category.
  induction arts as [|a arts IH]; intros cur Hs; simpl; [lia|].
  apply StronglySorted_inv in Hs as [Hs Ha].
  rewrite filter_app, length_app.
  destruct (decide (category a = c)) as [Heq|Hne].
  - rewrite (filter_eq_not_elem_of c (section_starts (category a) arts)).
    + case_bool_decide; [rewrite filter_cons_True by done|]; simpl; lia.
    + rewrite Heq. apply section_starts_same; [done..|].
      eapply Forall_impl; [exact Ha|]. unfold key_le, sort_key.
      intros b. by rewrite Heq.
  - specialize (IH (category a) Hs).
    case_bool_decide; [rewrite filter_cons_False by done|]; simpl; lia.
Qed.

Lemma strip_heading_checklist a : strip_prefix (u "## ") (checklist_line a) = None.
Proof.
  apply strip_prefix_None. unfold checklist_line.
  generalize (title a ++ u " | " ++ source a ++ u "](" ++ url a ++ u ")").
  intros x. vm_compute. reflexivity.
Qed.

Lemma omap_heading_article_lines a :
  omap (strip_prefix (u "## ")) (article_lines a) = [].
Proof.
  unfold article_lines. rewrite !omap_app. cbn [omap list_omap].
  rewrite strip_heading_checklist.
  assert (Hempty : strip_prefix (u "## ") [] = None) by (vm_compute; reflexivity).
  destruct (nonempty (summary a)); cbn [omap list_omap]; rewrite Hempty; [|done].
  rewrite strip_prefix_None; [done|].
  generalize (take 150 (summary a)). intros x. vm_compute. reflexivity.
Qed.

Lemma omap_heading_render_articles current_category arts :
  omap (strip_prefix (u "## ")) (render_articles current_category arts)
  = map category_label (section_starts current_category arts).
Proof.
  revert current_category. induction arts as [|a arts IH]; intros cur; [done|].
  rewrite render_articles_cons, !omap_app, omap_heading_article_lines, IH.
  simpl section_starts. rewrite map_app. f_equal.
  case_bool_decide; [|done].
  cbn [omap list_omap map]. rewrite strip_prefix_app.
  assert (Hempty : strip_prefix (u "## ") [] = None) by (vm_compute; reflexivity).
  by rewrite Hempty.
Qed.

(** X16. The section headings of the article part of the digest are the
    labels of the categories at which the category changes; in the digest of
    a run, whose articles are in rank order, every category of the fixed
    table starts at most one section. *)
Theorem digest_sections config target_date completed arts errs :
  collect_articles config target_date completed = Return (arts, errs) ->
  omap (strip_prefix (u "## ")) (render_articles [] arts)
  = map category_label (section_starts [] arts) /\
  forall c, c ∈ known_categories ->
    (length (filter (fun x => x = c) (section_starts [] arts)) <= 1)%nat.
Proof.
  intros (c & st & _ & _ & _ & -> & _)%collect_articles_inv.
  split; [apply omap_heading_render_articles|].
  intros cat Hcat. apply section_starts_once; [done|]. apply sort_by_sorted.
Qed.

(** *** The checklist lines of the digest *)

Ltac other_line :=
  unfold is_checklist;
  match goal with
  | |- ~ (startswith _ (u ?lit ++ ?x) = true) => generalize x; intros ?
  | |- _ => idtac
  end;
  let H := fresh in intros H; vm_compute in H; discriminate H.

Lemma filter_checklist_article_lines a :
  filter is_checklist (article_lines a) = [checklist_line a].
Proof.
  unfold article_lines. rewrite !filter_app.
  rewrite (filter_cons_True is_checklist (checklist_line a))
    by apply startswith_app.
  rewrite filter_nil.
  destruct (nonempty (summary a));
    repeat (rewrite filter_cons_False; [|other_line]); done.
Qed.

Lemma filter_checklist_render_articles current_category arts :
  filter is_checklist (render_articles current_category arts)
  = map checklist_line arts.
Proof.
  revert current_category. induction arts as [|a arts IH]; intros cur; [done|].
  rewrite render_articles_cons, !filter_app, filter_checklist_article_lines, IH.
  case_bool_decide; [|done].
  rewrite filter_cons_False; [|other_line].
  rewrite filter_cons_False; [done|other_line].
Qed.

(** X17. Whatever the articles hold, the lines of the digest that begin
    like a checklist line are the checklist lines of the articles, one for
    each article, in the order of the articles. *)
Theorem checklist_lines_in_order arts errs target_date now :
  filter is_checklist (generate_lines arts errs target_date now)
  = map checklist_line arts.
Proof.
  unfold generate_lines. rewrite !filter_app.
  assert (Hbody : filter is_checklist
            match arts with
            | [] => [u "本日の該当記事はありませんでした。"; []]
            | _ :: _ => render_articles [] arts
            end = map checklist_line arts).
  { destruct arts as [|a arts]; [|apply filter_checklist_render_articles].
    rewrite filter_cons_False; [|other_line].
    rewrite filter_cons_False; [done|other_line]. }
  assert (Herrs : filter is_checklist
            match errs with
            | [] => []
            | _ :: _ =>
              [u "---"; []; u "## ⚠ 取得エラー"; []] ++ map error_line errs ++ [[]]
            end = []).
  { destruct errs as [|e errs]; [done|].
    rewrite !filter_app.
    assert (Hlines : filter is_checklist (map error_line (e :: errs)) = []).
    { induction (e :: errs) as [|x l IHl]; [done|].
      cbn [map list_fmap fmap]. rewrite filter_cons_False; [done|].
      unfold error_line. other_line. }
    rewrite Hlines.
    repeat (rewrite filter_cons_False; [|other_line]). done. }
  rewrite Hbody, Herrs, app_nil_r.
  repeat (rewrite filter_cons_False; [|other_line]). done.
Qed.

(** *** The exceptions of a run *)

Lemma astimezone_cases d tz :
  astimezone d tz = Raise OverflowError \/ exists d', astimezone d tz = Return d'.
Proof.
  unfold astimezone. destruct (negb _); [by left|].
  destruct (in_range _); [right; eauto|by left].
Qed.

Lemma sub_hours_cases d h :
  sub_hours d h = Raise OverflowError \/ exists d', sub_hours d h = Return d'.
Proof. unfold sub_hours. destruct (in_range _); [right; eauto|by left]. Qed.

Lemma parse_entry_date_cases entry :
  parse_entry_date entry = Raise OverflowError \/
  exists pub_date, parse_entry_date entry = Return pub_date.
Proof.
  destruct (parse_entry_date entry) as [pub|e] eqn:H; [right; eauto|left].
  unfold parse_entry_date in H.
  by apply parse_entry_date_attrs_raise in H as [-> _].
Qed.

Lemma filter_entry_raise cutoff_time keywords exclude_keywords name feed_config
    seen entry x :
  filter_entry cutoff_time keywords exclude_keywords name feed_config seen entry
    = Raise x ->
  x = FromDatetime OverflowError.
Proof.
  unfold filter_entry. destruct (negb _ || _); [done|].
  destruct (parse_entry_date_cases entry) as [->|[pub ->]]; simpl.
  { by intros [= <-]. }
  destruct (match pub with Some _ => _ | None => _ end); [done|].
  destruct (matches_exclude_keywords _ _); [done|].
  destruct (negb _); [done|].
  destruct pub as [d|]; simpl; [|done].
  destruct (astimezone_cases d JST) as [->|[d' ->]]; simpl; [|done].
  by intros [= <-].
Qed.

Section RaiseFacts.
Variable cutoff_time : datetime.
Variables keywords exclude_keywords : list str.

Lemma process_entries_raise name feed_config ents st x :
  process_entries cutoff_time keywords exclude_keywords name feed_config ents st
    = Raise x ->
  x = FromDatetime OverflowError.
Proof.
  revert st. induction ents as [|e ents IH]; intros st; simpl; [done|].
  unfold process_entry at 1.
  destruct (filter_entry _ _ _ _ _ _ e) as [v|y] eqn:Hv; simpl.
  - apply IH.
  - intros [= <-]. by eapply filter_entry_raise.
Qed.

Lemma process_futures_raise completed st x :
  process_futures cutoff_time keywords exclude_keywords completed st = Raise x ->
  x = FromDatetime OverflowError \/
  exists feed_config parse_outcome e,
    (feed_config, parse_outcome) ∈ completed /\
    fetch_single_feed feed_config parse_outcome = Raise e /\
    x = FromFetch e.
Proof.
  revert st. induction completed as [|[fc po] rest IH]; intros st;
    cbn [process_futures]; [done|].
  destruct (process_future cutoff_time keywords exclude_keywords st (fc, po))
    as [st'|y] eqn:Hstep; unfold bind.
  - intros [->|(fc' & po' & e & Hin & Hfetch & ->)]%IH; [by left|].
    right. exists fc', po', e. split; [by right|done].
  - intros [= <-]. unfold process_future in Hstep. cbn [fst snd] in Hstep.
    destruct (fetch_single_feed fc po) as [[[nm ents] err]|e] eqn:Hfetch;
      unfold reraise, bind in Hstep.
    + left. destruct (truthy err); [done|]. by eapply process_entries_raise.
    + injection Hstep as <-. right. exists fc, po, e. split; [by left|done].
Qed.

End RaiseFacts.


(** *** Runs that return *)

Lemma days_before_year_bounds y :
  1 <= y <= 9998 -> 0 <= days_before_year y <= 3651329.
Proof. unfold days_before_year. intros. Z.div_mod_to_equations. lia. Qed.

Lemma days_before_month_day y m d :
  1 <= m <= 12 -> 1 <= d <= days_in_month y m ->
  1 <= days_before_month y m + d <= 366.
Proof.
  intros Hm Hd.
  assert (Hcases : m = 1 \/ m = 2 \/ m = 3 \/ m = 4 \/ m = 5 \/ m = 6 \/
                   m = 7 \/ m = 8 \/ m = 9 \/ m = 10 \/ m = 11 \/ m = 12) by lia.
  unfold days_before_month, days_in_month, days_before_month_plain in *.
  destruct (is_leap y);
    repeat (destruct Hcases as [->|Hcases]; [simpl in *; lia|]);
    subst; simpl in *; lia.
Qed.

(** A date up to the year 9998 is far enough from both ends of the range
    of [datetime]. *)
Lemma datetime_new_wall y m d h mi s tz dt :
  datetime_new y m d h mi s tz = Return dt ->
  y <= 9998 ->
  utcoffset dt = tz /\ 0 <= wall dt <= 315506447999 * us_per_second.
Proof.
  unfold datetime_new.
  destruct (negb (forallb _ _)); [done|].
  destruct ((MINYEAR <=? y) && (y <=? MAXYEAR)) eqn:Hy; simpl; [|done].
  destruct ((1 <=? m) && (m <=? 12)) eqn:Hm; simpl; [|done].
  destruct ((1 <=? d) && (d <=? days_in_month y m)) eqn:Hd; simpl; [|done].
  destruct ((0 <=? h) && (h <=? 23)) eqn:Hh; simpl; [|done].
  destruct ((0 <=? mi) && (mi <=? 59)) eqn:Hmi; simpl; [|done].
  destruct ((0 <=? s) && (s <=? 59)) eqn:Hs; simpl; [|done].
  intros [= <-] Hy98. simpl. split; [done|].
  apply andb_true_iff in Hy as [Hy1%Z.leb_le _], Hm as [?%Z.leb_le ?%Z.leb_le],
    Hd as [?%Z.leb_le ?%Z.leb_le], Hh as [?%Z.leb_le ?%Z.leb_le],
    Hmi as [?%Z.leb_le ?%Z.leb_le], Hs as [?%Z.leb_le ?%Z.leb_le].
  unfold MINYEAR in Hy1.
  pose proof (days_before_year_bounds y ltac:(lia)).
  pose proof (days_before_month_day y m d ltac:(lia) ltac:(lia)).
  unfold ymd2ord, us_per_second. lia.
Qed.

Lemma astimezone_returns d :
  utcoffset d = utc -> 0 <= wall d <= 315506447999 * us_per_second ->
  exists d', astimezone d JST = Return d'.
Proof.
  intros Hoff Hwall. unfold astimezone. rewrite Hoff.
  assert (Hin : forall w, 0 <= w <= 315506447999 * us_per_second + JST ->
                          in_range w = true).
  { intros w Hw. unfold in_range. apply andb_true_iff.
    rewrite Z.leb_le, Z.ltb_lt.
    unfold max_wall, MAXORDINAL, us_per_day, us_per_hour, JST, us_per_hour,
      us_per_second in *. lia. }
  rewrite !Hin; [eauto|..]; unfold utc, JST, us_per_hour, us_per_second in *; lia.
Qed.

Lemma filter_entry_returns cutoff_time keywords exclude_keywords name feed_config
    seen entry :
  sane_entry entry ->
  exists v,
    filter_entry cutoff_time keywords exclude_keywords name feed_config seen entry
      = Return v.
Proof.
  intros [Hpub Hupd].
  destruct (filter_entry _ _ _ _ _ seen entry) as [v|x] eqn:H; [eauto|exfalso].
  unfold filter_entry in H. destruct (negb _ || _); [done|].
  destruct (parse_entry_date entry) as [pub|e] eqn:Hdate; simpl in H.
  - destruct (match pub with Some _ => _ | None => _ end); [done|].
    destruct (matches_exclude_keywords _ _); [done|].
    destruct (negb _); [done|].
    destruct pub as [d|]; simpl in H; [|done].
    apply parse_entry_date_known in Hdate as (Hoff & p & Hp & Hd).
    assert (Hsane : sane_date p) by (destruct Hp; auto).
    destruct Hsane as [_ Hyear].
    apply datetime_new_wall in Hd as [_ Hwall]; [|done].
    destruct (astimezone_returns d Hoff Hwall) as (d' & Hd').
    by rewrite Hd' in H.
  - unfold parse_entry_date in Hdate.
    apply parse_entry_date_attrs_raise in Hdate as (_ & p & Hp & Hfit).
    apply elem_of_cons in Hp as [Hp|Hp].
    + destruct (Hpub p) as [? _]; [done|congruence].
    + apply list_elem_of_singleton in Hp.
      destruct (Hupd p) as [? _]; [done|congruence].
Qed.

Lemma process_entries_returns cutoff_time keywords exclude_keywords name
    feed_config ents st :
  Forall sane_entry ents ->
  exists st',
    process_entries cutoff_time keywords exclude_keywords name feed_config ents st
      = Return st'.
Proof.
  revert st. induction ents as [|e ents IH]; intros st Hall; simpl; [eauto|].
  apply Forall_cons in Hall as [He Hall]. unfold process_entry at 1.
  destruct (filter_entry_returns cutoff_time keywords exclude_keywords name
              feed_config (seen_urls st) e He) as (v & ->).
  simpl. by apply IH.
Qed.

Lemma process_futures_returns cutoff_time keywords exclude_keywords completed st :
  Forall (fun future => feed_name (fst future) <> None /\
                        feed_url (fst future) <> None) completed ->
  Forall (fun future => Forall sane_entry (fetched_entries future)) completed ->
  exists st',
    process_futures cutoff_time keywords exclude_keywords completed st = Return st'.
Proof.
  revert st. induction completed as [|[fc po] rest IH]; intros st Hkeys Hall;
    cbn [process_futures]; [eauto|].
  apply Forall_cons in Hkeys as [[Hname Hurl] Hkeys]. cbn [fst] in Hname, Hurl.
  apply Forall_cons in Hall as [Hf Hall].
  assert (Hstep : exists st1,
    process_future cutoff_time keywords exclude_keywords st (fc, po) = Return st1).
  { unfold process_future, fetched_entries in *. cbn [fst snd] in *.
    destruct (feed_name fc) as [name|] eqn:Hn; [|done].
    destruct (feed_url fc) as [url|] eqn:Hu; [|done].
    destruct (fetch_single_feed_total fc name url po Hn Hu)
      as ([[nm ents] err] & Hfetch).
    rewrite Hfetch in *. unfold reraise, bind.
    destruct (truthy err); [eauto|]. by apply process_entries_returns. }
  destruct Hstep as (st1 & ->). unfold bind. by apply IH.
Qed.

Lemma process_futures_keys cutoff_time keywords exclude_keywords completed st st' :
  process_futures cutoff_time keywords exclude_keywords completed st = Return st' ->
  Forall (fun future => feed_name (fst future) <> None /\
                        feed_url (fst future) <> None) completed.
Proof.
  revert st. induction completed as [|[fc po] rest IH]; intros st H;
    cbn [process_futures] in H; [constructor|].
  bind_inv H. constructor; [|by eapply IH].
  destruct (process_future_cases _ _ _ _ _ _ _ Ha)
    as (nm & ents & err & Hnm & Hfetch & _).
  destruct (fetch_single_feed_keys _ _ _ Hfetch) as (nm' & url & _ & Hurl).
  cbn [fst]. by rewrite Hnm, Hurl.
Qed.


(** X22. A run that returns had a name and a url in every feed item: one
    feed item without name or url is enough for the run to end in an
    exception, whatever the other feeds are and wherever the item stands in
    the completion order. *)
Theorem collect_articles_needs_keys config target_date completed :
  (forall arts errs,
      collect_articles config target_date completed = Return (arts, errs) ->
      Forall (fun future => feed_name (fst future) <> None /\
                            feed_url (fst future) <> None) completed) /\
  (forall feed_config parse_outcome,
      (feed_config, parse_outcome) ∈ completed ->
      feed_name feed_config = None \/ feed_url feed_config = None ->
      exists x, collect_articles config target_date completed = Raise x).
Proof.
  assert (Hkeys : forall arts errs,
    collect_articles config target_date completed = Return (arts, errs) ->
    Forall (fun future => feed_name (fst future) <> None /\
                          feed_url (fst future) <> None) completed).
  { intros arts errs (c & st & _ & Hloop & _)%collect_articles_inv.
    by eapply process_futures_keys. }
  split; [done|].
  intros fc po Hin Hmissing.
  destruct (collect_articles config target_date completed)
    as [[arts errs]|x] eqn:Hrun; [|eauto].
  specialize (Hkeys _ _ eq_refl). rewrite Forall_forall in Hkeys.
  destruct (Hkeys _ Hin) as [Hname Hurl]. cbn [fst] in *.
  by destruct Hmissing.
Qed.

(** *** The error section of the digest *)

Ltac no_bullet :=
  unfold is_error_bullet;
  match goal with
  | |- ~ (startswith _ (u ?lit ++ ?x) = true) => generalize x; intros ?
  | |- _ => idtac
  end;
  let H := fresh in intros H; vm_compute in H; discriminate H.

Lemma filter_bullet_render_articles current_category arts :
  filter is_error_bullet (render_articles current_category arts) = [].
Proof.
  revert current_category. induction arts as [|a arts IH]; intros cur; [done|].
  rewrite render_articles_cons, !filter_app, IH, app_nil_r.
  assert (Hlines : filter is_error_bullet (article_lines a) = []).
  { unfold article_lines. rewrite !filter_app.
    rewrite (filter_cons_False is_error_bullet (checklist_line a));
      [|unfold checklist_line; no_bullet].
    rewrite filter_nil.
    destruct (nonempty (summary a));
      repeat (rewrite filter_cons_False; [|no_bullet]); done. }
  rewrite Hlines, app_nil_r.
  case_bool_decide; [|done].
  repeat (rewrite filter_cons_False; [|no_bullet]). done.
Qed.

(** X20. The lines of the digest that begin like an error bullet are the
    bullets [- **name**: error] of the errors, one for each error, in their
    order; without errors there is none. *)
Theorem error_bullets_in_order arts errs target_date now :
  filter is_error_bullet (generate_lines arts errs target_date now)
  = map error_line errs.
Proof.
  unfold generate_lines. rewrite !filter_app.
  assert (Hbody : filter is_error_bullet
            match arts with
            | [] => [u "本日の該当記事はありませんでした。"; []]
            | _ :: _ => render_articles [] arts
            end = []).
  { destruct arts as [|a arts]; [|apply filter_bullet_render_articles].
    repeat (rewrite filter_cons_False; [|no_bullet]). done. }
  assert (Herrs : filter is_error_bullet
            match errs with
            | [] => []
            | _ :: _ =>
              [u "---"; []; u "## ⚠ 取得エラー"; []] ++ map error_line errs ++ [[]]
            end = map error_line errs).
  { destruct errs as [|e errs]; [done|].
    rewrite !filter_app.
    assert (Hlines : filter is_error_bullet (map error_line (e :: errs))
                     = map error_line (e :: errs)).
    { induction (e :: errs) as [|x l IHl]; [done|].
      cbn [map list_fmap fmap].
      rewrite filter_cons_True by apply startswith_app. by rewrite IHl. }
    rewrite Hlines.
    repeat (rewrite filter_cons_False; [|no_bullet]).
    by rewrite filter_nil, app_nil_r. }
  rewrite Hbody, Herrs.
  repeat (rewrite filter_cons_False; [|no_bullet]). done.
Qed.

(** *** What cleaning keeps *)

Lemma strip_tags_from_elem pending text x :
  x ∈ strip_tags_from pending text ->
  x ∈ text \/ exists p, pending = Some p /\ x ∈ p.
Proof.
  revert pending. induction text as [|c text IH]; intros pending.
  - destruct pending as [p|]; simpl; [|by intros ?%elem_of_nil].
    rewrite elem_of_rev. eauto.
  - destruct pending as [p|]; simpl.
    + destruct (char_eqb c GT).
      * destruct p as [|y [|z p]].
        -- intros [?|(q & [=] & _)]%IH. left. by right.
        -- simpl. intros [->|[->|Hin]%elem_of_cons]%elem_of_cons.
           ++ right. eexists. split; [done|by left].
           ++ left. by left.
           ++ apply IH in Hin as [?|(q & [=] & _)]. left. by right.
        -- intros [?|(q & [=] & _)]%IH. left. by right.
      * intros [?|(q & [= <-] & Hq)]%IH; [left; by right|].
        apply elem_of_cons in Hq as [->|Hq]; [left; by left|eauto].
    + destruct (char_eqb c LT) eqn:Hc.
      * intros [?|(q & [= <-] & Hq)]%IH; [left; by right|].
        apply list_elem_of_singleton in Hq as ->. left. by left.
      * intros [->|Hin]%elem_of_cons; [left; by left|].
        apply IH in Hin as [?|(q & [=] & _)]. left. by right.
Qed.

Lemma strip_tags_from_length pending text :
  (length (strip_tags_from pending text)
   <= length (default [] pending) + length text)%nat.
Proof.
  revert pending. induction text as [|c text IH]; intros pending.
  - destruct pending as [p|]; simpl; [rewrite length_rev|]; lia.
  - destruct pending as [p|]; simpl.
    + destruct (char_eqb c GT).
      * destruct p as [|y [|z p]]; simpl; specialize (IH None); simpl in IH; lia.
      * specialize (IH (Some (c :: p))). simpl in IH. lia.
    + destruct (char_eqb c LT).
      * specialize (IH (Some [c])). simpl in IH. lia.
      * specialize (IH None). simpl in *. lia.
Qed.

Lemma collapse_spaces_length in_run text :
  (length (collapse_spaces_from in_run text) <= length text)%nat.
Proof.
  revert in_run. induction text as [|c text IH]; intros in_run; simpl; [lia|].
  destruct (isspace c); [destruct in_run|]; simpl;
    [specialize (IH true)|specialize (IH true)|specialize (IH false)]; lia.
Qed.

(** X21. Cleaning never makes a text longer, and it invents no character
    but the space that stands for a run of whitespace. *)
Theorem clean_text_keeps text :
  (length (clean_text text) <= length text)%nat /\
  (forall c, c ∈ clean_text text -> c = SPACE \/ c ∈ text).
Proof.
  unfold clean_text.
  destruct (strip_infix (collapse_spaces_from false (strip_tags text)))
    as (pre & post & Heq).
  split.
  - pose proof (collapse_spaces_length false (strip_tags text)) as Hc.
    pose proof (strip_tags_from_length None text) as Ht.
    rewrite Heq, !length_app in Hc. unfold strip_tags in *. simpl in Ht. lia.
  - intros c Hc.
    assert (Hin : c ∈ collapse_spaces_from false (strip_tags text)).
    { rewrite Heq. apply elem_of_app. right. apply elem_of_app. by left. }
    apply collapse_spaces_elem in Hin as [->|[Hin _]]; [by left|]. right.
    by apply strip_tags_from_elem in Hin as [?|(q & [=] & _)].
Qed.

End Script.

(** C6, as stated: an unrecognized category would sort and be labelled as
    "other" is. It does not: ["sports"] has rank 99, not 6, and its label is
    ["sports"]. *)
Lemma C6_counterexample :
  ~ (forall a : Article,
        category a ∉ known_categories ->
        sort_key a = dict_get category_order (u "other") 99 /\
        category_label (category a) = category_label (u "other")).
Proof.
  intros H.
  specialize (H {| title := []; url := []; source := [];
                   category := u "sports"; language := [];
                   published := []; summary := [] |}).
  destruct H as [H _].
  - assert (Hd : bool_decide (u "sports" ∈ known_categories) = false)
      by (vm_compute; reflexivity).
    by apply bool_decide_eq_false in Hd.
  - vm_compute in H. discriminate.
Qed.


(** ** A sample run

    Instances of the runtime functions on the ASCII range, and one run of
    the collector over three feeds, to evaluate the model and to exercise
    the theorems on. *)

Module Sample.

Definition ascii_lower (s : str) : str :=
  map (fun c => if ((65 <=? c) && (c <=? 90))%N then (c + 32)%N else c) s.

Definition ascii_isspace (c : char) : bool :=
  ((9 <=? c) && (c <=? 13) || (c =? 32))%N.

Definition two_digits (n : Z) : str :=
  (if n <? 10 then u "0" else []) ++ str_of_int n.

Definition iso_strftime (d : datetime) (fmt : str) : str :=
  str_of_int (year d) ++ u "-" ++ two_digits (month d) ++ u "-"
  ++ two_digits (day d) ++ u " " ++ two_digits (hour d) ++ u ":"
  ++ two_digits (minute d).

Definition official_feed : FeedConfig :=
  {| feed_name := Some (u "OpenAI"); feed_url := Some (u "https://openai.example/rss");
     feed_category := Some (u "official"); feed_language := None |}.

Definition plain_feed : FeedConfig :=
  {| feed_name := Some (u "Blog"); feed_url := Some (u "https://blog.example/feed");
     feed_category := None; feed_language := None |}.

Definition down_feed : FeedConfig :=
  {| feed_name := Some (u "Down"); feed_url := Some (u "https://down.example/feed");
     feed_category := Some (u "tech"); feed_language := Some (u "ja") |}.

Definition entry_gpt : Entry :=
  {| entry_link := Some (u "https://openai.example/gpt-5");
     entry_title := Some (u "OpenAI launches <b>GPT-5</b>");
     entry_summary := Some (u " The  new model ");
     entry_published_parsed := Some (mk_struct_time 2026 2 16 20 0 0);
     entry_updated_parsed := None |}.

Definition entry_old : Entry :=
  {| entry_link := Some (u "https://openai.example/gpt-3");
     entry_title := Some (u "GPT-3 released");
     entry_summary := None;
     entry_published_parsed := Some (mk_struct_time 2020 6 11 0 0 0);
     entry_updated_parsed := None |}.

Definition entry_spam : Entry :=
  {| entry_link := Some (u "https://openai.example/casino");
     entry_title := Some (u "GPT Casino bonus");
     entry_summary := Some [];
     entry_published_parsed := None;
     entry_updated_parsed := Some (mk_struct_time 2026 2 16 21 0 0) |}.

Definition entry_weather : Entry :=
  {| entry_link := Some (u "https://blog.example/weather");
     entry_title := Some (u "Weather report");
     entry_summary := Some (u "Sunny");
     entry_published_parsed := None;
     entry_updated_parsed := None |}.

Definition entry_undated : Entry :=
  {| entry_link := Some (u "https://blog.example/notes");
     entry_title := Some (u "Notes on gpt");
     entry_summary := None;
     entry_published_parsed := Some (mk_struct_time 2026 2 30 0 0 0);
     entry_updated_parsed := None |}.

(** The Blog feed repeats the URL of [entry_gpt]. *)
Definition entry_repeat : Entry :=
  {| entry_link := Some (u "https://openai.example/gpt-5");
     entry_title := Some (u "GPT-5 is out");
     entry_summary := None;
     entry_published_parsed := None;
     entry_updated_parsed := None |}.

Definition config : Config :=
  {| cfg_feeds := Some [official_feed; plain_feed; down_feed];
     cfg_keywords := Some [u "GPT"];
     cfg_exclude_keywords := Some [u "casino"];
     cfg_fetch_hours := None |}.

Definition target_date : datetime := target_date_of 2026 2 17.

Definition blog_outcome : pyresult py_exception FeedParserDict :=
  Return {| bozo := true; bozo_exception := u "not well-formed";
            entries := [entry_undated; entry_weather] |}.

Definition official_outcome : pyresult py_exception FeedParserDict :=
  Return {| bozo := false; bozo_exception := [];
            entries := [entry_gpt; entry_old; entry_spam; entry_repeat] |}.

Definition down_outcome : pyresult py_exception FeedParserDict :=
  Raise {| str_e := u "timed out" |}.

(** The order in which the fetches completed. *)
Definition completed : list (FeedConfig * pyresult py_exception FeedParserDict) :=
  [(plain_feed, blog_outcome); (down_feed, down_outcome);
   (official_feed, official_outcome)].

Definition run : pyresult uncaught (list Article * list FetchError) :=
  collect_articles ascii_lower ascii_isspace iso_strftime config target_date completed.

Definition run_articles : list Article :=
  match run with Return (arts, _) => arts | Raise _ => [] end.

Definition run_errors : list FetchError :=
  match run with Return (_, errs) => errs | Raise _ => [] end.

(** The cutoff of the sample run: 48 hours before the target date. *)
Definition cutoff_time : datetime :=
  {| wall := wall target_date - 48 * us_per_hour; utcoffset := JST |}.

Definition no_keywords : Config :=
  {| cfg_feeds := cfg_feeds config; cfg_keywords := Some [];
     cfg_exclude_keywords := cfg_exclude_keywords config;
     cfg_fetch_hours := Some 24 |}.

Definition no_keywords_articles : list Article :=
  match collect_articles ascii_lower ascii_isspace iso_strftime
                         no_keywords target_date completed with
  | Return (arts, _) => arts
  | Raise _ => []
  end.

Definition sports_article : Article :=
  {| title := u "Final score"; url := u "https://sports.example/1";
     source := u "Sports"; category := u "sports"; language := u "en";
     published := unknown_date; summary := [] |}.

(** Two articles with different titles and sources and the same checklist
    line. *)
Definition pipe_in_title : Article :=
  {| title := u "A | B"; url := u "https://example.org/1"; source := u "C";
     category := u "tech"; language := u "en";
     published := unknown_date; summary := [] |}.

Definition pipe_in_source : Article :=
  {| title := u "A"; url := u "https://example.org/1"; source := u "B | C";
     category := u "tech"; language := u "en";
     published := unknown_date; summary := [] |}.

(** The same fetches, completed in the opposite order. *)
Definition completed_reversed
  : list (FeedConfig * pyresult py_exception FeedParserDict) :=
  [(official_feed, official_outcome); (down_feed, down_outcome);
   (plain_feed, blog_outcome)].

Definition reversed_articles : list Article :=
  match collect_articles ascii_lower ascii_isspace iso_strftime
                         config target_date completed_reversed with
  | Return (arts, _) => arts
  | Raise _ => []
  end.

Definition reversed_errors : list FetchError :=
  match collect_articles ascii_lower ascii_isspace iso_strftime
                         config target_date completed_reversed with
  | Return (_, errs) => errs
  | Raise _ => []
  end.

(** The article built from [entry_gpt]. *)
Definition gpt_article : Article :=
  match filter_entry ascii_lower ascii_isspace iso_strftime cutoff_time
                     [u "GPT"] [u "casino"] (u "OpenAI") official_feed ∅ entry_gpt with
  | Return (Accept a) => a
  | _ => sports_article
  end.

(** A run whose cutoff would lie before the year 1. *)
Definition early_exception : uncaught :=
  match collect_articles ascii_lower ascii_isspace iso_strftime
                         config (target_date_of 1 1 1) completed with
  | Raise x => x
  | Return _ => FromFetch (KeyError [])
  end.

(** A feed item without a name, in a configuration and in a run of its
    own. *)
Definition nameless_feed : FeedConfig :=
  {| feed_name := None; feed_url := Some (u "https://nameless.example/feed");
     feed_category := None; feed_language := None |}.

Definition nameless_config : Config :=
  {| cfg_feeds := Some [official_feed; nameless_feed];
     cfg_keywords := Some [u "GPT"];
     cfg_exclude_keywords := None;
     cfg_fetch_hours := None |}.

Definition nameless_completed
  : list (FeedConfig * pyresult py_exception FeedParserDict) :=
  [(official_feed, official_outcome); (nameless_feed, blog_outcome)].

Definition nameless_exception : uncaught :=
  match collect_articles ascii_lower ascii_isspace iso_strftime
                         nameless_config target_date nameless_completed with
  | Raise x => x
  | Return _ => FromDatetime ValueError
  end.

Example run_returns : run = Return (run_articles, run_errors).
Proof. vm_compute. reflexivity. Qed.

Example run_urls :
  map url run_articles
  = [u "https://openai.example/gpt-5"; u "https://blog.example/notes"].
Proof. vm_compute. reflexivity. Qed.

Example run_error_names : map name run_errors = [u "Down"].
Proof. vm_compute. reflexivity. Qed.

Example run_order : as_completed config completed.
Proof.
  unfold as_completed. simpl.
  change [plain_feed; down_feed; official_feed]
    with ([plain_feed; down_feed] ++ [official_feed]).
  rewrite Permutation_app_comm. reflexivity.
Qed.

Lemma C1_url_unique_witness : NoDup (map url run_articles).
Proof.
  apply (proj2 (proj2 (C1_url_unique ascii_lower ascii_isspace iso_strftime))
           config target_date completed run_articles run_errors).
  vm_compute. reflexivity.
Defined.

Lemma C2_empty_keywords_nothing_passes_witness : no_keywords_articles = [].
Proof.
  apply (proj2 (proj2 (C2_empty_keywords_nothing_passes
                         ascii_lower ascii_isspace iso_strftime))
           no_keywords target_date completed no_keywords_articles run_errors).
  - reflexivity.
  - vm_compute. reflexivity.
Defined.

Lemma C3_recency_check_witness :
  filter_entry ascii_lower ascii_isspace iso_strftime cutoff_time
               [u "GPT"] [u "casino"] (u "OpenAI") official_feed ∅ entry_old
  = Return SkipOld.
Proof.
  apply (proj1 (C3_recency_check ascii_lower ascii_isspace iso_strftime)
           cutoff_time [u "GPT"] [u "casino"] (u "OpenAI") official_feed ∅ entry_old).
  split; [by vm_compute|]. split; [apply not_elem_of_empty|].
  eexists. split; [vm_compute; reflexivity|]. by vm_compute.
Defined.


Lemma C5_stable_category_sort_witness :
  exists st,
    gather_articles ascii_lower ascii_isspace iso_strftime config target_date completed
      = Return st /\
    run_articles ≡ₚ articles st /\
    StronglySorted (key_le sort_key) run_articles.
Proof.
  destruct (proj2 (proj2 (proj2 (C5_stable_category_sort
                                   ascii_lower ascii_isspace iso_strftime)))
              config target_date completed run_articles run_errors)
    as (st & Hg & Hperm & Hsorted & _).
  - vm_compute. reflexivity.
  - exists st. split; [exact Hg|]. split; [exact Hperm|exact Hsorted].
Defined.

Lemma C6_unrecognized_category_kept_witness :
  sort_key sports_article = 99 /\
  category_label (category sports_article) = u "sports".
Proof.
  destruct (C6_unrecognized_category_kept ascii_lower ascii_isspace iso_strftime
              sports_article) as (Hkey & _ & Hlabel & _).
  - assert (Hd : bool_decide (u "sports" ∈ known_categories) = false)
      by (vm_compute; reflexivity).
    apply bool_decide_eq_false in Hd. exact Hd.
  - split; [exact Hkey|exact Hlabel].
Defined.

Lemma C7_fetch_errors_witness :
  fetch_single_feed plain_feed blog_outcome
  = Return (u "Blog", [entry_undated; entry_weather], None) /\
  fetch_single_feed down_feed down_outcome
  = Return (u "Down", [], Some (u "timed out")).
Proof.
  split.
  - apply (proj2 (proj2 (proj1 (proj2 (proj1
             (C7_fetch_errors ascii_lower ascii_isspace iso_strftime
                              plain_feed blog_outcome)
             (u "Blog") (u "https://blog.example/feed") eq_refl eq_refl))
           _ eq_refl))).
    discriminate.
  - apply (proj1 (proj2 (proj2 (proj1
             (C7_fetch_errors ascii_lower ascii_isspace iso_strftime
                              down_feed down_outcome)
             (u "Down") (u "https://down.example/feed") eq_refl eq_refl)))
           _ eq_refl).
Defined.

(** C7, as stated: no fetch would propagate an exception and no feed would
    abort the run. A feed item without a name does both: the subscript
    [feed_config["name"]] stands before the [try], and the run over
    [nameless_completed] ends in its [KeyError]. *)
Lemma C7_counterexample :
  ~ (forall feed_config parse_outcome,
        exists r, fetch_single_feed feed_config parse_outcome = Return r) /\
  collect_articles ascii_lower ascii_isspace iso_strftime
                   nameless_config target_date nameless_completed
  = Raise (FromFetch (KeyError (u "name"))).
Proof.
  split.
  - intros H. destruct (H nameless_feed blog_outcome) as [r Hr].
    vm_compute in Hr. discriminate Hr.
  - vm_compute. reflexivity.
Qed.

Lemma C10_feed_defaults_witness :
  Forall (fun a => exists feed_config,
              feed_config ∈ map fst completed /\
              feed_name feed_config = Some (source a) /\
              (feed_category feed_config = None -> category a = u "other") /\
              (feed_language feed_config = None -> language a = u "en"))
         run_articles.
Proof.
  apply (proj2 (C10_feed_defaults ascii_lower ascii_isspace iso_strftime)
           config target_date completed run_articles run_errors).
  vm_compute. reflexivity.
Defined.

(** C8, as stated: the triples of the articles would be recovered from the
    digest, whatever the articles are. No reader can do that: the digests of
    [pipe_in_title] and of [pipe_in_source] are the same text. *)
Lemma C8_counterexample :
  ~ (exists parse : str -> list (str * str * str),
        forall arts errs target now,
          parse (generate_markdown iso_strftime arts errs target now)
          = map triple arts).
Proof.
  intros [parse Hparse].
  assert (Hsame :
    generate_markdown iso_strftime [pipe_in_title] [] target_date target_date
    = generate_markdown iso_strftime [pipe_in_source] [] target_date target_date)
    by (vm_compute; reflexivity).
  pose proof (Hparse [pipe_in_title] [] target_date target_date) as H1.
  pose proof (Hparse [pipe_in_source] [] target_date target_date) as H2.
  rewrite Hsame, H2 in H1. vm_compute in H1. discriminate.
Qed.

Lemma C8_digest_checklist_witness :
  parse_digest (generate_markdown iso_strftime run_articles run_errors
                                  target_date target_date)
  = map triple run_articles.
Proof.
  apply (proj2 (proj2 (proj2 (C8_digest_checklist iso_strftime
                                run_articles run_errors target_date target_date)))).
  - compute_done.
  - compute_done.
  - compute_done.
Defined.

Lemma C9_seen_only_on_accept_witness :
  process_entry ascii_lower ascii_isspace iso_strftime cutoff_time
                [u "GPT"] [u "casino"] (u "Blog") plain_feed
                initial_state entry_weather
  = Return initial_state.
Proof.
  apply (proj1 (proj2 (C9_seen_only_on_accept ascii_lower ascii_isspace iso_strftime))
           cutoff_time [u "GPT"] [u "casino"] (u "Blog") plain_feed
           initial_state entry_weather SkipNoKeyword).
  - vm_compute. reflexivity.
  - right. right. reflexivity.
Defined.

Lemma matches_keywords_substring_witness :
  matches_keywords ascii_lower (u "OpenAI launches GPT-5") [u "gpt"] = true.
Proof.
  apply (proj2 (matches_keywords_substring ascii_lower
                  (u "OpenAI launches GPT-5") [u "gpt"])).
  exists (u "gpt"), (u "openai launches "), (u "-5").
  split; [compute_done|]. vm_compute. reflexivity.
Defined.

Lemma empty_keyword_matches_all_witness :
  matches_keywords ascii_lower (u "Weather report") [u "GPT"; []] = true.
Proof.
  apply (proj1 (empty_keyword_matches_all ascii_lower ascii_isspace iso_strftime
                  (u "Weather report") [u "GPT"; []] eq_refl
                  ltac:(compute_done))).
Defined.

Lemma clean_text_whitespace_witness : ascii_isspace 98%N = false.
Proof.
  apply (proj1 (proj2 (clean_text_whitespace ascii_isspace (u " a  b ")))
           [97%N] 32%N 98%N []).
  - vm_compute. reflexivity.
  - reflexivity.
Defined.

Lemma parse_entry_date_raises_witness :
  exists pub_date, parse_entry_date entry_undated = Return pub_date.
Proof.
  apply (proj1 (proj2 (parse_entry_date_raises entry_undated))).
  - intros parsed [= <-]. reflexivity.
  - intros parsed [=].
Defined.

Lemma fetch_single_feed_shape_witness :
  feed_name down_feed = Some (u "Down") /\
  (Some (u "timed out") <> None -> @nil Entry = []).
Proof.
  destruct (fetch_single_feed_shape down_feed down_outcome
              (u "Down") [] (Some (u "timed out")) eq_refl)
    as ((Hname & _) & Herr & _).
  split; [exact Hname|exact Herr].
Defined.

Lemma collect_articles_errors_witness :
  run_errors = omap reported_error completed.
Proof.
  apply (proj1 (collect_articles_errors ascii_lower ascii_isspace iso_strftime
                  config target_date completed run_articles run_errors
                  ltac:(vm_compute; reflexivity))).
Defined.

Lemma collect_articles_urls_witness :
  exists c,
    sub_hours target_date 48 = Return c /\
    forall x,
      x ∈ map url run_articles <->
      exists future entry,
        future ∈ completed /\ entry ∈ fetched_entries future /\
        entry_url entry = x /\
        qualifies ascii_lower c [u "GPT"] [u "casino"] entry.
Proof.
  apply (collect_articles_urls ascii_lower ascii_isspace iso_strftime
           config target_date completed run_articles run_errors).
  vm_compute. reflexivity.
Defined.

Lemma collect_articles_order_witness :
  map url run_articles ≡ₚ map url reversed_articles /\
  run_errors ≡ₚ reversed_errors.
Proof.
  apply (collect_articles_order ascii_lower ascii_isspace iso_strftime
           config target_date completed completed_reversed
           run_articles run_errors reversed_articles reversed_errors).
  - unfold completed, completed_reversed.
    change [(plain_feed, blog_outcome); (down_feed, down_outcome);
            (official_feed, official_outcome)]
      with (rev [(official_feed, official_outcome); (down_feed, down_outcome);
                 (plain_feed, blog_outcome)]).
    rewrite <- (Permutation_rev _). reflexivity.
  - vm_compute. reflexivity.
  - vm_compute. reflexivity.
Defined.

Lemma collect_articles_fields_witness :
  Forall (fun a =>
            url a <> [] /\
            clean_text ascii_isspace (title a) = title a /\
            (length (summary a) <= 200)%nat /\
            ~ has_tag (title a) /\ ~ has_tag (summary a)) run_articles.
Proof.
  apply (collect_articles_fields ascii_lower ascii_isspace iso_strftime
           config target_date completed run_articles run_errors).
  vm_compute. reflexivity.
Defined.

Lemma collect_articles_one_line_witness :
  Forall (fun a => one_line (title a) /\ one_line (summary a)) run_articles.
Proof.
  apply (collect_articles_one_line ascii_lower ascii_isspace iso_strftime
           config target_date completed run_articles run_errors eq_refl).
  vm_compute. reflexivity.
Defined.

Lemma accepted_summary_line_witness :
  article_lines gpt_article
  = [checklist_line gpt_article]
    ++ (if nonempty (clean_text ascii_isspace (default [] (entry_summary entry_gpt)))
        then [u "      "
              ++ take 150 (clean_text ascii_isspace
                                      (default [] (entry_summary entry_gpt)))]
        else [])
    ++ [[]].
Proof.
  apply (accepted_summary_line ascii_lower ascii_isspace cutoff_time
           [u "GPT"] [u "casino"] (u "OpenAI") official_feed ∅ entry_gpt gpt_article).
  apply (filter_entry_Accept ascii_lower ascii_isspace iso_strftime).
  vm_compute. reflexivity.
Defined.

Lemma articles_sort_unique_witness :
  sort_by sort_key (sort_by sort_key [sports_article; pipe_in_title; gpt_article])
  = sort_by sort_key [sports_article; pipe_in_title; gpt_article].
Proof.
  apply (proj2 (articles_sort_unique
                  (sort_by sort_key [sports_article; pipe_in_title; gpt_article])
                  [])).
  apply sort_by_sorted.
Defined.

Lemma digest_sections_witness :
  u "official" ∈ known_categories /\
  (length (filter (fun x => x = u "official") (section_starts [] run_articles))
   <= 1)%nat.
Proof.
  assert (Hin : u "official" ∈ known_categories) by compute_done.
  split; [exact Hin|].
  apply (proj2 (digest_sections ascii_lower ascii_isspace iso_strftime
                  config target_date completed run_articles run_errors
                  ltac:(vm_compute; reflexivity)) (u "official") Hin).
Defined.



Lemma collect_articles_needs_keys_witness :
  exists x,
    collect_articles ascii_lower ascii_isspace iso_strftime
                     nameless_config target_date nameless_completed = Raise x.
Proof.
  apply (proj2 (collect_articles_needs_keys ascii_lower ascii_isspace iso_strftime
                  nameless_config target_date nameless_completed)
           nameless_feed blog_outcome).
  - apply elem_of_cons. right. apply elem_of_cons. by left.
  - left. reflexivity.
Defined.

Lemma clean_text_keeps_witness :
  (length (clean_text ascii_isspace (u "<p>Hello <b>world</b></p>"))
   <= length (u "<p>Hello <b>world</b></p>"))%nat.
Proof.
  apply (proj1 (clean_text_keeps ascii_isspace (u "<p>Hello <b>world</b></p>"))).
Defined.

End Sample.

End CollectRss.
